(** * CosHash: a shallow embedding of [coshash.cpp] and its properties

    The digest is computed by [cos_hash]: the input is padded to whole
    64-byte blocks, a seed derived from the raw input fills a state of 16
    32-bit words, every block is absorbed, mixed, permuted and diffused into
    the state, and the final state is written out big-endian.

    Conventions of the embedding:
    - a [uint32_t] is a [Z] in [0, 2^32), every wrapping operation is
      written out with [wrap32];
    - a [std::vector<uint8_t>] is a [list byte], a [std::vector<uint32_t>]
      or [std::vector<int>] is a [list Z], read with [!!!] and updated in
      place with [<[i:=v]>];
    - a counted loop [for (i = 0; i < n; ++i)] is [for_range n body]. *)

From Equations Require Import Equations.
From stdpp Require Import base list strings.
From Stdlib Require Import ZArith Lia.
From Stdlib.Strings Require Import Byte Ascii.
From Stdlib Require PrimFloat FloatOps SpecFloat FloatAxioms Uint63.

(** ** Machine words and bytes *)

Definition wrap32 (z : Z) : Z := (z mod 2 ^ 32)%Z.

(** The values a [uint32_t] holds. *)
Definition word32 (z : Z) : Prop := (0 <= z < 2 ^ 32)%Z.

Definition add32 (x y : Z) : Z := wrap32 (x + y).
Definition mul32 (x y : Z) : Z := wrap32 (x * y).

(** [x << n] and [x >> n] on [uint32_t], for a shift count [n] in [0, 31]. *)
Definition shl32 (x n : Z) : Z := wrap32 (Z.shiftl x n).
Definition shr32 (x n : Z) : Z := Z.shiftr x n.

Definition byte_val (b : byte) : Z := Z.of_N (Byte.to_N b).

(** [static_cast<uint8_t>(z)] *)
Definition byte_of_Z (z : Z) : byte :=
  match Byte.of_N (Z.to_N (z mod 256)) with
  | Some b => b
  | None => x00
  end.

(** [for (i = 0; i < n; ++i) s = body i s]: index [n - 1] runs last. *)
Fixpoint for_range {S : Type} (n : nat) (body : nat -> S -> S) (s : S) : S :=
  match n with
  | O => s
  | S k => body k (for_range k body s)
  end.

#[global] Instance byte_inhabited : Inhabited byte := populate x00.

(** ** Padding *)

Definition BLOCK_SIZE : nat := 64.

(** The [while (padded.size() % BLOCK_SIZE != 0) padded.push_back(0)] loop. *)
Equations? pad_loop (padded : list byte) : list byte
  by wf ((BLOCK_SIZE - length padded mod BLOCK_SIZE) mod BLOCK_SIZE) lt :=
  pad_loop padded with Nat.eq_dec (length padded mod BLOCK_SIZE) 0 := {
    | left _ := padded
    | right _ := pad_loop (padded ++ [x00]) }.
Proof.
  rewrite length_app. cbn [length]. unfold BLOCK_SIZE in *.
  pose proof (Nat.mod_upper_bound (length padded) 64).
  pose proof (Nat.div_mod_eq (length padded) 64).
  destruct (Nat.eq_dec (length padded mod 64) 63) as [e|ne].
  - assert (Hz : (length padded + 1) mod 64 = 0).
    { rewrite (Nat.div_mod_eq (length padded) 64) at 1. rewrite e.
      replace (64 * (length padded / 64) + 63 + 1)
        with ((1 + length padded / 64) * 64) by lia.
      apply Nat.Div0.mod_mul. }
    rewrite Hz, Nat.sub_0_r, Nat.Div0.mod_same.
    rewrite Nat.mod_small; lia.
  - assert (Hs : (length padded + 1) mod 64 = length padded mod 64 + 1).
    { symmetry. apply Nat.mod_unique with (q := length padded / 64).
      - lia.
      - lia. }
    rewrite Hs.
    rewrite (Nat.mod_small (64 - _)), (Nat.mod_small (64 - _)) by lia. lia.
Qed.

Definition pad_input (input : list byte) : list byte :=
  pad_loop (input ++ [x80]).

(** The inverse the padding admits: drop the trailing zero bytes, then the
    marker. It works on the reversed sequence. *)
Fixpoint strip_zeros (rev_padded : list byte) : list byte :=
  match rev_padded with
  | b :: rest => if Byte.eqb b x00 then strip_zeros rest else rev_padded
  | [] => []
  end.

Definition unpad (padded : list byte) : option (list byte) :=
  match strip_zeros (rev padded) with
  | b :: rest => if Byte.eqb b x80 then Some (rev rest) else None
  | [] => None
  end.

(** ** Seed and initial state *)

(** One turn of the loop of [derive_seed]:
    [seed ^= input[i] + 0x9e3779b9 + (seed << 6) + (seed >> 2)].
    The byte is promoted and every sum is an [unsigned] sum. *)
Definition seed_round (seed : Z) (x : byte) : Z :=
  Z.lxor seed
    (add32 (add32 (add32 (byte_val x) 0x9e3779b9) (shl32 seed 6))
           (shr32 seed 2)).

Definition derive_seed (input : list byte) : Z :=
  for_range (length input)
    (fun i seed => seed_round seed (input !!! i))
    (wrap32 (Z.of_nat (length input))).

(** The seed as the specification words it: a left-to-right fold over the
    bytes, every operation taken modulo 2^32. *)
Definition derive_seed_spec (input : list byte) : Z :=
  fold_left
    (fun seed x =>
       Z.lxor seed
         ((byte_val x + 0x9e3779b9 + Z.shiftl seed 6 + Z.shiftr seed 2)
            mod 2 ^ 32)%Z)
    input
    (Z.of_nat (length input) mod 2 ^ 32)%Z.

Definition initial_mix (seed index : Z) : Z :=
  let value := Z.lxor seed (mul32 index 0x85ebca6b) in
  let value := Z.lxor value (shr32 value 16) in
  let value := mul32 value 0x85ebca6b in
  let value := Z.lxor value (shr32 value 13) in
  let value := mul32 value 0xc2b2ae35 in
  let value := Z.lxor value (shr32 value 16) in
  value.

Definition STATE_SIZE : nat := 16.

(** [std::vector<uint32_t> state(STATE_SIZE)] filled by [initial_mix]. *)
Definition init_state (seed : Z) : list Z :=
  for_range STATE_SIZE
    (fun i state => <[i := initial_mix seed (Z.of_nat i)]> state)
    (replicate STATE_SIZE 0%Z).

(** ** Block parameters and absorption *)

(** [b0 << 24 | b1 << 16 | b2 << 8 | b3] on the promoted bytes, stored in a
    [uint32_t]. *)
Definition pack_be (b0 b1 b2 b3 : byte) : Z :=
  wrap32
    (Z.lor
       (Z.lor
          (Z.lor (Z.shiftl (byte_val b0) 24) (Z.shiftl (byte_val b1) 16))
          (Z.shiftl (byte_val b2) 8))
       (byte_val b3)).

(** The guard [n <= block.size()] that every fallback branch tests. *)
Definition has_bytes (block : list byte) (n : nat) : bool :=
  (n <=? length block)%nat.

Definition derive_params (block : list byte) : Z * Z * Z :=
  let a :=
    if has_bytes block 4
    then pack_be (block !!! 0) (block !!! 1) (block !!! 2) (block !!! 3)
    else 0x1f1f1f1f%Z in
  let b :=
    if has_bytes block 8
    then pack_be (block !!! 4) (block !!! 5) (block !!! 6) (block !!! 7)
    else 0x3c3c3c3c%Z in
  let c :=
    if has_bytes block 12
    then pack_be (block !!! 8) (block !!! 9) (block !!! 10) (block !!! 11)
    else 0x7a7a7a7a%Z in
  (a, b, c).

(** The fallback of the absorb loop:
    [for (j = offset; j < block.size(); ++j) segment = (segment << 8) | block[j]]. *)
Definition trailing_segment (block : list byte) (offset : nat) : Z :=
  for_range (length block - offset)
    (fun k segment =>
       Z.lor (shl32 segment 8) (byte_val (block !!! (offset + k))))
    0%Z.

Definition segment (block : list byte) (i : nat) : Z :=
  let offset := i * 4 in
  if has_bytes block (offset + 4)
  then pack_be (block !!! offset) (block !!! (offset + 1))
               (block !!! (offset + 2)) (block !!! (offset + 3))
  else trailing_segment block offset.

(** [state[i] = (state[i] + segment) % 0x100000000] for every word. *)
Definition absorb (block : list byte) (state : list Z) : list Z :=
  for_range STATE_SIZE
    (fun i state =>
       <[i := wrap32 (add32 (state !!! i) (segment block i))]> state)
    state.

(** ** Permutation *)

(** [std::swap(permutation[i], permutation[j])] *)
Definition swap (permutation : list Z) (i j : nat) : list Z :=
  <[j := permutation !!! i]> (<[i := permutation !!! j]> permutation).

(** The transposition of positions [i] and [j], which is how [swap] moves
    the entries. *)
Definition transpose (i j k : nat) : nat :=
  if decide (k = j) then i else if decide (k = i) then j else k.

Definition identity_permutation : list Z :=
  for_range 16
    (fun i permutation => <[i := Z.of_nat i]> permutation)
    (replicate 16 0%Z).

(** [for (i = 0; i < block.size() && i < 4; ++i) seed = (seed << 8) | block[i]] *)
Definition block_seed (block : list byte) : Z :=
  for_range (Nat.min (length block) 4)
    (fun i seed => Z.lor (shl32 seed 8) (byte_val (block !!! i)))
    0%Z.

(** The Fisher-Yates loop [for (i = n; i > 0; --i)]: draw the next seed,
    swap position [i] with position [seed % (i + 1)]. *)
Fixpoint shuffle (n : nat) (seed : Z) (permutation : list Z) : list Z :=
  match n with
  | O => permutation
  | S k =>
      let seed := add32 (mul32 seed 1664525) 1013904223 in
      let j := Z.to_nat (seed mod (Z.of_nat n + 1)) in
      shuffle k seed (swap permutation n j)
  end.

Definition derive_permutation (block : list byte) : list Z :=
  shuffle 15 (block_seed block) identity_permutation.

(** [newState[i] = state[perm[i]]] into a fresh vector of 16 words. *)
Definition permute (perm : list Z) (state : list Z) : list Z :=
  for_range STATE_SIZE
    (fun i newState => <[i := state !!! Z.to_nat (perm !!! i)]> newState)
    (replicate STATE_SIZE 0%Z).

(** ** Output *)

Definition word_bytes (word : Z) : list byte :=
  [ byte_of_Z (Z.land (shr32 word 24) 0xFF);
    byte_of_Z (Z.land (shr32 word 16) 0xFF);
    byte_of_Z (Z.land (shr32 word 8) 0xFF);
    byte_of_Z (Z.land word 0xFF) ].

(** The range-for of [compress_state], four [push_back]s per word. *)
Definition compress_state (state : list Z) : list byte :=
  fold_left (fun hash_output word => hash_output ++ word_bytes word) state [].

(** ** Blocks of the padded input *)

Definition num_blocks (paddedInput : list byte) : nat :=
  length paddedInput / BLOCK_SIZE.

(** The bytes [b * BLOCK_SIZE .. (b + 1) * BLOCK_SIZE) of the padded input. *)
Definition current_block (paddedInput : list byte) (b : nat) : list byte :=
  take BLOCK_SIZE (drop (b * BLOCK_SIZE) paddedInput).

(** The rotation amount of the diffusion phase: [state[i] & 0x1F]. *)
Definition rot_amount (word : Z) : Z := Z.land word 0x1F.

(** Reading a digest back: four bytes per word, most significant first. *)
Fixpoint decompress_state (bytes : list byte) : list Z :=
  match bytes with
  | b0 :: b1 :: b2 :: b3 :: rest => pack_be b0 b1 b2 b3 :: decompress_state rest
  | _ => []
  end.

(** The inverse of [initial_mix] in its seed: the three xor-shifts and the
    two odd multiplications undone in reverse order. *)
Definition initial_unmix (value index : Z) : Z :=
  let value := Z.lxor value (shr32 value 16) in
  let value := mul32 value 0x7ed1b41d in
  let value := Z.lxor (Z.lxor value (shr32 value 13)) (shr32 value 26) in
  let value := mul32 value 0xa5cb9243 in
  let value := Z.lxor value (shr32 value 16) in
  Z.lxor value (mul32 index 0x85ebca6b).

(** The number a byte sequence spells, most significant byte first. *)
Definition be_value (bytes : list byte) : Z :=
  fold_left (fun acc x => (acc * 256 + byte_val x)%Z) bytes 0%Z.

(** ** The terminal front end ([main.cpp]) *)

(** The digits [std::hex] writes, in order of their value. *)
Definition hex_alphabet : string := "0123456789abcdef".

Definition hex_digit (d : N) : ascii :=
  match String.get (N.to_nat d) hex_alphabet with
  | Some c => c
  | None => "f"%char
  end.

(** A non-negative [int] written with [std::hex]: lowercase digits, none
    leading. An [int] has at most eight of them. *)
Fixpoint hex_digits (fuel : nat) (value : N) (rest : string) : string :=
  match fuel with
  | O => rest
  | S fuel' =>
      let rest := String (hex_digit (value mod 16)) rest in
      if (value / 16 =? 0)%N then rest else hex_digits fuel' (value / 16) rest
  end.

Definition hex_of_int (value : N) : string := hex_digits 8 value "".

(** A field written with [width] and [fill]: fill characters on the left. *)
Fixpoint fill_string (n : nat) (fill : ascii) : string :=
  match n with
  | O => ""
  | S k => String fill (fill_string k fill)
  end.

Definition put_width (width : nat) (fill : ascii) (field : string) : string :=
  fill_string (width - String.length field) fill +:+ field.

(** [ss.width(2); ss.fill('0'); ss << static_cast<int>(byte)] under
    [ss << std::hex]. *)
Definition put_hex_byte (b : byte) : string :=
  put_width 2 "0"%char (hex_of_int (Byte.to_N b)).

Definition bytes_to_hex_string (bytes : list byte) : string :=
  fold_left (fun ss b => ss +:+ put_hex_byte b) bytes "".

(** Reading the hexadecimal text back, two digits per byte. *)
Fixpoint digit_index (c : ascii) (alphabet : string) (k : N) : option N :=
  match alphabet with
  | EmptyString => None
  | String c' rest =>
      if Ascii.eqb c c' then Some k else digit_index c rest (N.succ k)
  end.

Definition hex_digit_value (c : ascii) : option N :=
  digit_index c hex_alphabet 0.

Fixpoint hex_decode (text : string) : option (list byte) :=
  match text with
  | EmptyString => Some []
  | String c1 (String c2 rest) =>
      match hex_digit_value c1, hex_digit_value c2, hex_decode rest with
      | Some hi, Some lo, Some bytes =>
          option_map (fun b => b :: bytes) (Byte.of_N (hi * 16 + lo))
      | _, _, _ => None
      end
  | String _ EmptyString => None
  end.

(** [std::getline]: the bytes before the first newline, or all of them. *)
Fixpoint getline (stdin : list byte) : list byte :=
  match stdin with
  | [] => []
  | c :: rest => if Byte.eqb c x0a then [] else c :: getline rest
  end.

Definition newline : string := String (ascii_of_byte x0a) "".

(** ** The same code with every vector access checked

    [None] stands for an access outside the bounds of a vector, which the
    C++ [operator[]] leaves undefined. *)

Definition rd {A : Type} (v : list A) (i : nat) : option A := v !! i.

Definition wr {A : Type} (v : list A) (i : nat) (x : A) : option (list A) :=
  if decide (i < length v) then Some (<[i := x]> v) else None.

(** An [int] used as an index: a negative one is far out of bounds. *)
Definition index_of_int (p : Z) : option nat :=
  if decide (0 <= p)%Z then Some (Z.to_nat p) else None.

Fixpoint for_range_checked {S : Type} (n : nat) (body : nat -> S -> option S)
    (s : S) : option S :=
  match n with
  | O => Some s
  | S k => for_range_checked k body s ≫= body k
  end.

Definition derive_seed_checked (input : list byte) : option Z :=
  for_range_checked (length input)
    (fun i seed => x ← rd input i; Some (seed_round seed x))
    (wrap32 (Z.of_nat (length input))).

Definition init_state_checked (seed : Z) : option (list Z) :=
  for_range_checked STATE_SIZE
    (fun i state => wr state i (initial_mix seed (Z.of_nat i)))
    (replicate STATE_SIZE 0%Z).

Definition read_be (block : list byte) (offset : nat) : option Z :=
  b0 ← rd block offset;
  b1 ← rd block (offset + 1);
  b2 ← rd block (offset + 2);
  b3 ← rd block (offset + 3);
  Some (pack_be b0 b1 b2 b3).

Definition derive_params_checked (block : list byte) : option (Z * Z * Z) :=
  a ← (if has_bytes block 4 then read_be block 0 else Some 0x1f1f1f1f%Z);
  b ← (if has_bytes block 8 then read_be block 4 else Some 0x3c3c3c3c%Z);
  c ← (if has_bytes block 12 then read_be block 8 else Some 0x7a7a7a7a%Z);
  Some (a, b, c).

Definition trailing_segment_checked (block : list byte) (offset : nat)
    : option Z :=
  for_range_checked (length block - offset)
    (fun k segment =>
       x ← rd block (offset + k);
       Some (Z.lor (shl32 segment 8) (byte_val x)))
    0%Z.

Definition segment_checked (block : list byte) (i : nat) : option Z :=
  let offset := i * 4 in
  if has_bytes block (offset + 4)
  then read_be block offset
  else trailing_segment_checked block offset.

Definition absorb_checked (block : list byte) (state : list Z)
    : option (list Z) :=
  for_range_checked STATE_SIZE
    (fun i state =>
       word ← rd state i;
       seg ← segment_checked block i;
       wr state i (wrap32 (add32 word seg)))
    state.

Definition swap_checked (permutation : list Z) (i j : nat) : option (list Z) :=
  x ← rd permutation i;
  y ← rd permutation j;
  permutation ← wr permutation i y;
  wr permutation j x.

Definition identity_permutation_checked : option (list Z) :=
  for_range_checked 16
    (fun i permutation => wr permutation i (Z.of_nat i))
    (replicate 16 0%Z).

Definition block_seed_checked (block : list byte) : option Z :=
  for_range_checked (Nat.min (length block) 4)
    (fun i seed => x ← rd block i; Some (Z.lor (shl32 seed 8) (byte_val x)))
    0%Z.

Fixpoint shuffle_checked (n : nat) (seed : Z) (permutation : list Z)
    : option (list Z) :=
  match n with
  | O => Some permutation
  | S k =>
      let seed := add32 (mul32 seed 1664525) 1013904223 in
      let j := Z.to_nat (seed mod (Z.of_nat n + 1)) in
      permutation ← swap_checked permutation n j;
      shuffle_checked k seed permutation
  end.

Definition derive_permutation_checked (block : list byte) : option (list Z) :=
  permutation ← identity_permutation_checked;
  seed ← block_seed_checked block;
  shuffle_checked 15 seed permutation.

Definition permute_checked (perm : list Z) (state : list Z) : option (list Z) :=
  for_range_checked STATE_SIZE
    (fun i newState =>
       p ← rd perm i;
       k ← index_of_int p;
       word ← rd state k;
       wr newState i word)
    (replicate STATE_SIZE 0%Z).

(** The iterator range of [current_block] lies inside the padded input. *)
Definition current_block_checked (paddedInput : list byte) (b : nat)
    : option (list byte) :=
  if decide ((b + 1) * BLOCK_SIZE <= length paddedInput)
  then Some (current_block paddedInput b)
  else None.

(** ** The nonlinear phase in double precision

    A [double] is a primitive binary64 float; products round to nearest.
    The only operation the library has no counterpart for is the platform's
    [sin], a parameter [sin : double -> double] wherever it is needed. *)

Definition double : Set := PrimFloat.float.

(** [static_cast<double>(x)] for a [uint32_t] [x]: exact. *)
Definition double_of_u32 (x : Z) : double :=
  PrimFloat.of_uint63 (Uint63.of_Z x).

(** The integer a finite double becomes when its fraction is dropped;
    nothing for an infinity or a NaN. *)
Definition double_trunc (x : double) : option Z :=
  match FloatOps.Prim2SF x with
  | SpecFloat.S754_zero _ => Some 0%Z
  | SpecFloat.S754_finite negative m e =>
      let magnitude :=
        if (0 <=? e)%Z then (Z.pos m * 2 ^ e)%Z else (Z.pos m / 2 ^ (- e))%Z in
      Some (if negative then (- magnitude)%Z else magnitude)
  | _ => None
  end.

(** [floor(x)]: the largest integral double that is not above [x]. *)
Definition double_floor (x : double) : double :=
  match FloatOps.Prim2SF x with
  | SpecFloat.S754_finite negative m e =>
      if (0 <=? e)%Z then x
      else
        let q := (Z.pos m / 2 ^ (- e))%Z in
        let whole := (Z.pos m mod 2 ^ (- e) =? 0)%Z in
        if negative
        then PrimFloat.opp (double_of_u32 (if whole then q else q + 1))
        else double_of_u32 q
  | _ => x
  end.

(** [static_cast<int32_t>(x)]: the truncated value when an [int32_t] can
    hold it; C++ leaves every other conversion undefined. *)
Definition int32_of_double (x : double) : option Z :=
  z ← double_trunc x;
  if decide (- 2 ^ 31 <= z < 2 ^ 31)%Z then Some z else None.

(** [floor(sin(a * static_cast<double>(temp)) * c)] *)
Definition mix_double (sin : double -> double) (a temp c : Z) : double :=
  let sin_val := sin (PrimFloat.mul (double_of_u32 a) (double_of_u32 temp)) in
  double_floor (PrimFloat.mul sin_val (double_of_u32 c)).

(** The [mix] of the nonlinear phase on a target: the converted value where
    the conversion is defined, and what the target's conversion returns,
    [overflow], where it is not. *)
Definition sin_mix_double (sin : double -> double) (overflow : double -> Z)
    (a temp c : Z) : Z :=
  let x := mix_double sin a temp c in
  match int32_of_double x with
  | Some mix => mix
  | None => overflow x
  end.

(** x86-64: [cvttsd2si] returns the "integer indefinite" value, [INT_MIN],
    for a double that does not fit. *)
Definition overflow_x86 (x : double) : Z := (- 2 ^ 31)%Z.

(** A 32-bit pattern read as a two's-complement integer. *)
Definition reinterpret_int32 (z : Z) : Z :=
  ((z + 2 ^ 31) mod 2 ^ 32 - 2 ^ 31)%Z.

(** One word of the nonlinear phase as the specification words it:
    [mix] is [floor(sin_val * c)] reinterpreted as a 32-bit two's-complement
    integer, and the word becomes [(word + mix) mod 2^32]. *)
Definition nonlinear_word_spec (sin : double -> double)
    (a b_param c word : Z) : option Z :=
  let temp := Z.lxor word b_param in
  floored ← double_trunc (mix_double sin a temp c);
  Some ((word + reinterpret_int32 floored) mod 2 ^ 32)%Z.

(** The correctly rounded double sine of 1.0, [0x1.aed548f090ceep-1]. *)
Definition sin_of_one : double :=
  FloatOps.SF2Prim (SpecFloat.S754_finite false 7579296827247854 (-53)).

(** A double that is neither an infinity nor a NaN. *)
Definition double_finite (x : double) : bool :=
  match FloatOps.Prim2SF x with
  | SpecFloat.S754_zero _ | SpecFloat.S754_finite _ _ _ => true
  | _ => false
  end.

(** What the nonlinear phase needs of a target's sine: a finite value at
    every argument it is called with, the product of two 32-bit values. *)
Definition sine_finite_on_words (sin : double -> double) : Prop :=
  forall a temp : Z,
    word32 a -> word32 temp ->
    double_finite (sin (PrimFloat.mul (double_of_u32 a) (double_of_u32 temp)))
    = true.

(** The digest of the empty input, as [main] prints it. *)
Definition digest_of_empty_input : string :=
  "e45a4c8d41c6da497535c02b8dd82d26cc5aebfd343c0a7d3e27484f47063ccdd8021c932210ac5c8a13938ba8901e903cdc35822d76507f526ab3bbf311823a".

Section CosHash.

(** Two things the C++ text leaves to the target.

    [rotate_left value 0] evaluates [value >> 32]. A target either masks
    the shift count to its low five bits or shifts every bit out;
    [shift_count_masked] says which.

    The nonlinear phase goes through [double]: [sin_mix a temp c] stands
    for [static_cast<int32_t>(floor(sin(a * static_cast<double>(temp)) * c))],
    the result of the platform's [sin], of [floor] and of the conversion
    to [int32_t]. [sin_mix_double sin overflow] is that computation for a
    target's sine and its conversion of values that do not fit. *)
Variable shift_count_masked : bool.
Variable sin_mix : Z -> Z -> Z -> Z.

(** A lemma depends on these two only when its statement does. *)
Set Default Proof Using "Type".

Definition shift_count (n : Z) : Z :=
  if shift_count_masked then Z.land n 31 else n.

Definition rotate_left (value shift : Z) : Z :=
  Z.lor (wrap32 (Z.shiftl value (shift_count shift)))
        (Z.shiftr value (shift_count (wrap32 (32 - shift)))).

(** One word of the nonlinear phase. *)
Definition nonlinear_word (a b_param c word : Z) : Z :=
  let temp := Z.lxor word b_param in
  let mix := sin_mix a temp c in
  wrap32 (add32 word (wrap32 mix)).

Definition nonlinear (a b_param c : Z) (state : list Z) : list Z :=
  for_range STATE_SIZE
    (fun i state => <[i := nonlinear_word a b_param c (state !!! i)]> state)
    state.

(** One turn of the diffusion loop, writing [state[i]] in place. *)
Definition diffuse_step (i : nat) (state : list Z) : list Z :=
  let neighbor := state !!! ((i + 1) mod STATE_SIZE) in
  let rot := rot_amount (state !!! i) in
  let rotated := rotate_left neighbor rot in
  <[i := Z.lxor (state !!! i) rotated]> state.

Definition diffuse (state : list Z) : list Z :=
  for_range STATE_SIZE diffuse_step state.

(** The body of the block loop. *)
Definition process_block (state : list Z) (block : list byte) : list Z :=
  let '(a, b_param, c) := derive_params block in
  let state := absorb block state in
  let state := nonlinear a b_param c state in
  let state := permute (derive_permutation block) state in
  diffuse state.

Definition block_loop (paddedInput : list byte) (state : list Z) : list Z :=
  for_range (num_blocks paddedInput)
    (fun b state => process_block state (current_block paddedInput b))
    state.

Definition cos_hash (input : list byte) : list byte :=
  let paddedInput := pad_input input in
  let seed := derive_seed input in
  compress_state (block_loop paddedInput (init_state seed)).

(** What [main] writes to the standard output for the bytes on its
    standard input. *)
Definition main_stdout (stdin : list byte) : string :=
  let input_bytes := getline stdin in
  let hash_bytes := cos_hash input_bytes in
  let hash_hex := bytes_to_hex_string hash_bytes in
  ("[INPUT] Enter input string to CosHash" +:+ newline +:+ "> ")
  +:+ ("[OUTPUT] Hashed: " +:+ hash_hex +:+ newline).


Definition nonlinear_checked (a b_param c : Z) (state : list Z)
    : option (list Z) :=
  for_range_checked STATE_SIZE
    (fun i state =>
       word ← rd state i;
       wr state i (nonlinear_word a b_param c word))
    state.

Definition diffuse_step_checked (i : nat) (state : list Z) : option (list Z) :=
  neighbor ← rd state ((i + 1) mod STATE_SIZE);
  word ← rd state i;
  wr state i (Z.lxor word (rotate_left neighbor (rot_amount word))).

Definition diffuse_checked (state : list Z) : option (list Z) :=
  for_range_checked STATE_SIZE diffuse_step_checked state.

Definition process_block_checked (state : list Z) (block : list byte)
    : option (list Z) :=
  '(a, b_param, c) ← derive_params_checked block;
  state ← absorb_checked block state;
  state ← nonlinear_checked a b_param c state;
  perm ← derive_permutation_checked block;
  state ← permute_checked perm state;
  diffuse_checked state.

Definition cos_hash_checked (input : list byte) : option (list byte) :=
  let paddedInput := pad_input input in
  seed ← derive_seed_checked input;
  state ← init_state_checked seed;
  state ← for_range_checked (num_blocks paddedInput)
             (fun b state =>
                block ← current_block_checked paddedInput b;
                process_block_checked state block)
             state;
  Some (compress_state state).



(** ** Words and loops: proofs *)

Lemma wrap32_range (z : Z) : (0 <= wrap32 z < 2 ^ 32)%Z.
Proof. unfold wrap32. apply Z.mod_pos_bound. lia. Qed.

Lemma wrap32_small (z : Z) : (0 <= z < 2 ^ 32)%Z -> wrap32 z = z.
Proof. intros Hz. unfold wrap32. apply Z.mod_small. exact Hz. Qed.

Lemma for_range_S {S : Type} (n : nat) (body : nat -> S -> S) (s : S) :
  for_range (Datatypes.S n) body s = body n (for_range n body s).
Proof. reflexivity. Qed.

Lemma for_range_ext {S : Type} (n : nat) (body body' : nat -> S -> S) (s : S) :
  (forall i x, i < n -> body i x = body' i x) ->
  for_range n body s = for_range n body' s.
Proof.
  induction n as [|n IH]; intros Hext; [reflexivity |].
  cbn [for_range]. rewrite IH by (intros; apply Hext; lia).
  apply Hext. lia.
Qed.

(** A loop that only reads [l[i]] at turn [i] is a left fold over [l]. *)
Lemma for_range_lookup_fold {S : Type} (f : S -> byte -> S) (l : list byte) (s : S) :
  for_range (length l) (fun i acc => f acc (l !!! i)) s = fold_left f l s.
Proof.
  induction l as [|x l IH] using rev_ind; [reflexivity |].
  rewrite length_app, Nat.add_1_r, fold_left_app. cbn [for_range fold_left].
  rewrite <- IH. f_equal.
  - apply for_range_ext. intros i acc Hi.
    rewrite lookup_total_app_l by exact Hi. reflexivity.
  - rewrite lookup_total_app_r by lia. rewrite Nat.sub_diag. reflexivity.
Qed.

(** A loop that invariably keeps a property keeps it to the end. *)
Lemma for_range_invariant {S : Type} (P : S -> Prop) (n : nat)
      (body : nat -> S -> S) (s : S) :
  P s -> (forall i x, i < n -> P x -> P (body i x)) -> P (for_range n body s).
Proof.
  intros Hs Hbody. induction n as [|n IH]; [exact Hs |].
  cbn [for_range]. apply Hbody; [lia |]. apply IH. intros; apply Hbody; [lia | assumption].
Qed.

(** Goals [P (for_range n body s)] where every turn writes one slot: the
    invariant [P] holds at entry by [tac0] and survives each write. *)
Ltac slot_loop P tac0 :=
  apply (for_range_invariant P);
  [ tac0 | intros ? ? _ ?; try apply Forall_insert; rewrite ?length_insert; try assumption ].

(** A loop that writes [f i] to slot [i] fills the first [k] slots. *)
Lemma for_range_fill {A : Type} (f : nat -> A) (k : nat) (l : list A) :
  k <= length l ->
  for_range k (fun i acc => <[i := f i]> acc) l = (f <$> seq 0 k) ++ drop k l.
Proof.
  induction k as [|k IH]; intros Hk; [reflexivity |].
  cbn [for_range]. rewrite IH by lia.
  rewrite seq_S, fmap_app, <- app_assoc. cbn [fmap list_fmap app].
  rewrite insert_app_r_alt by (rewrite length_fmap, length_seq; lia).
  rewrite length_fmap, length_seq, Nat.sub_diag.
  destruct (lookup_lt_is_Some_2 l k) as [x Hx]; [lia |].
  rewrite (drop_S l x k Hx). reflexivity.
Qed.

Lemma for_range_fill_all {A : Type} (f : nat -> A) (n : nat) (l : list A) :
  length l = n ->
  for_range n (fun i acc => <[i := f i]> acc) l = f <$> seq 0 n.
Proof.
  intros Hl. rewrite for_range_fill by lia.
  rewrite drop_ge by lia. apply app_nil_r.
Qed.

Lemma list_as_lookups {A : Type} `{!Inhabited A} (l : list A) :
  (fun i => l !!! i) <$> seq 0 (length l) = l.
Proof.
  apply list_eq. intros i. rewrite list_lookup_fmap.
  destruct (decide (i < length l)) as [Hi|Hi].
  - rewrite lookup_seq_lt by exact Hi. cbn.
    symmetry. apply list_lookup_lookup_total_lt. exact Hi.
  - rewrite lookup_seq_ge by lia. cbn.
    symmetry. apply lookup_ge_None. lia.
Qed.

(** ** Seed: proofs *)

Lemma seed_round_spec (seed : Z) (x : byte) :
  seed_round seed x =
  Z.lxor seed
    ((byte_val x + 0x9e3779b9 + Z.shiftl seed 6 + Z.shiftr seed 2) mod 2 ^ 32)%Z.
Proof.
  unfold seed_round, add32, shl32, shr32, wrap32. f_equal.
  rewrite (Z.add_mod_idemp_l (byte_val x + _)) by lia.
  rewrite Z.add_mod_idemp_r by lia.
  rewrite Z.add_mod_idemp_l by lia.
  reflexivity.
Qed.

(** ** Rotation: proofs *)

(** C9: rotating a 32-bit word by zero returns the word, whichever way the
    target treats the shift count 32 of [value >> (32 - 0)], and the
    rotation amount of the diffusion phase, [state[i] AND 0x1F], is below 32. *)
Theorem rotate_left_zero_noop (value word : Z) :
  (0 <= value < 2 ^ 32)%Z ->
  rotate_left value 0 = value /\ (0 <= rot_amount word < 32)%Z.
Proof.
  intros Hv. split.
  - unfold rotate_left, shift_count.
    destruct shift_count_masked.
    + change (Z.land 0 31) with 0%Z.
      change (Z.land (wrap32 (32 - 0)) 31) with 0%Z.
      rewrite Z.shiftl_0_r, Z.shiftr_0_r, wrap32_small by exact Hv.
      apply Z.lor_diag.
    + change (wrap32 (32 - 0)) with 32%Z.
      rewrite Z.shiftl_0_r, wrap32_small by exact Hv.
      rewrite Z.shiftr_div_pow2 by lia.
      rewrite Z.div_small by exact Hv. apply Z.lor_0_r.
  - unfold rot_amount. change 0x1F%Z with (Z.ones 5).
    rewrite Z.land_ones by lia. apply Z.mod_pos_bound. lia.
Qed.

(** ** Permutation: proofs *)

Lemma swap_lookup (l : list Z) (i j k : nat) :
  i < length l -> j < length l -> swap l i j !! k = l !! transpose i j k.
Proof.
  intros Hi Hj. unfold swap, transpose.
  rewrite list_lookup_insert, length_insert.
  destruct (decide (k = j)) as [->|Hkj].
  - rewrite decide_True by (split; [reflexivity | exact Hj]).
    symmetry. apply list_lookup_lookup_total_lt. exact Hi.
  - rewrite decide_False by (intros [? _]; congruence).
    rewrite list_lookup_insert.
    destruct (decide (k = i)) as [->|Hki].
    + rewrite decide_True by (split; [reflexivity | exact Hi]).
      symmetry. apply list_lookup_lookup_total_lt. exact Hj.
    + rewrite decide_False by (intros [? _]; congruence). reflexivity.
Qed.

Lemma swap_Permutation (l : list Z) (i j : nat) :
  i < length l -> j < length l -> swap l i j ≡ₚ l.
Proof.
  intros Hi Hj. apply Permutation_inj. split.
  - unfold swap. rewrite !length_insert. reflexivity.
  - exists (transpose i j). split.
    + intros x y. unfold transpose. repeat case_decide; lia.
    + intros k. apply swap_lookup; assumption.
Qed.

Lemma shuffle_Permutation (n : nat) (seed : Z) (l : list Z) :
  n < length l -> shuffle n seed l ≡ₚ l.
Proof.
  revert seed l. induction n as [|n IH]; intros seed l Hn; [reflexivity |].
  cbn [shuffle].
  set (seed' := add32 (mul32 seed 1664525) 1013904223).
  set (j := Z.to_nat (seed' mod (Z.of_nat (S n) + 1))).
  assert (Hj : j <= S n).
  { subst j. pose proof (Z.mod_pos_bound seed' (Z.of_nat (S n) + 1)). lia. }
  assert (Hswap : swap l (S n) j ≡ₚ l) by (apply swap_Permutation; lia).
  rewrite IH.
  - exact Hswap.
  - rewrite (Permutation_length Hswap). lia.
Qed.

Lemma identity_permutation_eq : identity_permutation = Z.of_nat <$> seq 0 16.
Proof. reflexivity. Qed.

Lemma derive_permutation_Permutation (block : list byte) :
  derive_permutation block ≡ₚ Z.of_nat <$> seq 0 16.
Proof.
  unfold derive_permutation. rewrite shuffle_Permutation.
  - rewrite identity_permutation_eq. reflexivity.
  - rewrite identity_permutation_eq, length_fmap, length_seq. lia.
Qed.

Lemma permute_fmap (perm state : list Z) :
  length perm = 16 ->
  permute perm state = (fun p => state !!! Z.to_nat p) <$> perm.
Proof.
  intros Hperm. unfold permute, STATE_SIZE.
  rewrite (for_range_fill_all (fun i => state !!! Z.to_nat (perm !!! i)))
    by apply length_replicate.
  transitivity ((fun p => state !!! Z.to_nat p) <$>
                  ((fun i => perm !!! i) <$> seq 0 (length perm))).
  - rewrite Hperm, <- list_fmap_compose. reflexivity.
  - rewrite list_as_lookups. reflexivity.
Qed.

Lemma permute_Permutation (perm state : list Z) :
  perm ≡ₚ Z.of_nat <$> seq 0 16 -> length state = 16 ->
  permute perm state ≡ₚ state.
Proof.
  intros Hperm Hstate.
  rewrite permute_fmap
    by (rewrite (Permutation_length Hperm), length_fmap, length_seq; reflexivity).
  rewrite Hperm, <- list_fmap_compose.
  transitivity ((fun i => state !!! i) <$> seq 0 (length state)).
  - rewrite Hstate. erewrite list_fmap_ext; [reflexivity |].
    intros i x _. cbn. rewrite Nat2Z.id. reflexivity.
  - rewrite list_as_lookups. reflexivity.
Qed.

(** C7: for a block of any length, [derive_permutation] is a rearrangement
    of 0..15: sixteen distinct entries, each in [0, 15], every index hit;
    hence permuting a 16-word state rearranges its words and changes none. *)
Theorem derive_permutation_bijection (block : list byte) :
  derive_permutation block ≡ₚ Z.of_nat <$> seq 0 16 /\
  length (derive_permutation block) = 16 /\
  NoDup (derive_permutation block) /\
  Forall (fun p => (0 <= p < 16)%Z) (derive_permutation block) /\
  (forall state : list Z,
     length state = 16 -> permute (derive_permutation block) state ≡ₚ state).
Proof.
  pose proof (derive_permutation_Permutation block) as Hperm.
  split; [exact Hperm |]. split; [| split; [| split]].
  - rewrite (Permutation_length Hperm), length_fmap, length_seq. reflexivity.
  - rewrite Hperm. apply (NoDup_fmap_2 _), NoDup_seq.
  - rewrite Hperm. apply Forall_fmap, Forall_forall.
    intros i Hi%elem_of_seq. cbn. lia.
  - intros state Hstate. apply permute_Permutation; assumption.
Qed.

(** ** Padding: proofs *)


Lemma pad_loop_spec (padded : list byte) :
  exists k : nat,
    pad_loop padded = padded ++ repeat x00 k /\
    (length padded + k) mod 64 = 0 /\
    (forall k', k' < k -> (length padded + k') mod 64 <> 0).
Proof.
  funelim (pad_loop padded).
  - exists 0. cbn [repeat]. rewrite app_nil_r, Nat.add_0_r.
    repeat split; [assumption | intros k' Hk'; lia].
  - match goal with IH : exists _, _ |- _ => destruct IH as (k & Hk & Hmod & Hmin) end.
    exists (S k). rewrite length_app in *. cbn [length] in *.
    repeat split.
    + rewrite Hk, <- app_assoc. reflexivity.
    + replace (length padded + S k) with (length padded + 1 + k) by lia.
      exact Hmod.
    + intros [|k'] Hk'.
      * rewrite Nat.add_0_r. assumption.
      * replace (length padded + S k') with (length padded + 1 + k') by lia.
        apply Hmin. lia.
Qed.

Lemma strip_zeros_repeat (k : nat) (l : list byte) :
  strip_zeros (repeat x00 k ++ l) = strip_zeros l.
Proof. induction k as [|k IH]; [reflexivity | exact IH]. Qed.

Lemma unpad_marker (x : list byte) (k : nat) :
  unpad (x ++ x80 :: repeat x00 k) = Some x.
Proof.
  unfold unpad.
  rewrite rev_app_distr. cbn [rev]. rewrite rev_repeat, <- app_assoc.
  rewrite strip_zeros_repeat. cbn. rewrite rev_involutive. reflexivity.
Qed.

Lemma pad_input_shape (input : list byte) :
  exists k : nat,
    pad_input input = input ++ x80 :: repeat x00 k /\
    (length input + 1 + k) mod 64 = 0 /\
    (forall k', k' < k -> (length input + 1 + k') mod 64 <> 0).
Proof.
  destruct (pad_loop_spec (input ++ [x80])) as (k & Hk & Hmod & Hmin).
  rewrite length_app in Hmod, Hmin. cbn [length] in Hmod, Hmin.
  exists k. split; [| split; assumption].
  unfold pad_input. rewrite Hk, <- app_assoc. reflexivity.
Qed.

Lemma pad_input_length (input : list byte) :
  exists q : nat, length (pad_input input) = 64 * q /\ length input < 64 * q.
Proof.
  destruct (pad_input_shape input) as (k & Hk & Hmod & _).
  apply Nat.Div0.div_exact in Hmod.
  exists ((length input + 1 + k) / 64).
  rewrite Hk, length_app. cbn [length]. rewrite repeat_length. lia.
Qed.

(** C4: padding appends the 0x80 marker and the fewest zero bytes that make
    the length a multiple of 64; the result is at least one byte longer than
    the input and a positive multiple of 64; the empty input pads to the
    marker followed by 63 zero bytes. *)
Theorem pad_input_spec (input : list byte) :
  (exists k : nat,
     pad_input input = input ++ x80 :: repeat x00 k /\
     (length input + 1 + k) mod 64 = 0 /\
     (forall k', k' < k -> (length input + 1 + k') mod 64 <> 0)) /\
  length input + 1 <= length (pad_input input) /\
  0 < length (pad_input input) /\
  length (pad_input input) mod 64 = 0 /\
  pad_input [] = x80 :: repeat x00 63.
Proof.
  split; [apply pad_input_shape |].
  destruct (pad_input_length input) as (q & Hq & Hlt).
  rewrite Hq. split; [lia |]. split; [lia |]. split; [| reflexivity].
  rewrite Nat.mul_comm. apply Nat.Div0.mod_mul.
Qed.

Lemma unpad_pad_input (input : list byte) : unpad (pad_input input) = Some input.
Proof.
  destruct (pad_input_shape input) as (k & Hk & _).
  rewrite Hk. apply unpad_marker.
Qed.

(** C10: padding is injective, because [unpad] recovers the input from its
    padded form: distinct inputs have distinct padded forms. *)
Theorem pad_input_injective (x y : list byte) :
  x <> y ->
  pad_input x <> pad_input y /\
  unpad (pad_input x) = Some x /\ unpad (pad_input y) = Some y.
Proof.
  intros Hne. split; [| split; apply unpad_pad_input].
  intros Hpad. apply Hne.
  pose proof (unpad_pad_input x) as Hx.
  rewrite Hpad, unpad_pad_input in Hx. congruence.
Qed.

(** ** Nonlinear phase: proofs *)

(** A loop that rewrites slot [i] from its own content maps the slots. *)
Lemma for_range_map_slots (g : Z -> Z) (n : nat) (l : list Z) :
  n <= length l ->
  for_range n (fun i st => <[i := g (st !!! i)]> st) l
  = (g <$> take n l) ++ drop n l.
Proof.
  induction n as [|n IH]; intros Hn; [reflexivity |].
  cbn [for_range]. rewrite IH by lia.
  destruct (lookup_lt_is_Some_2 l n) as [x Hx]; [lia |].
  assert (Htake : length (g <$> take n l) = n)
    by (rewrite length_fmap, length_take; lia).
  rewrite lookup_total_app_r, insert_app_r_alt by lia.
  rewrite Htake, Nat.sub_diag, (drop_S l x n Hx).
  rewrite (take_S_r l n x Hx), fmap_app, <- app_assoc. reflexivity.
Qed.

(** The integer half of the nonlinear phase: the signed [mix] is added to
    the word with 32-bit wrap-around, so a negative [mix] subtracts. *)
Lemma nonlinear_word_wraps (a b_param c word : Z) :
  nonlinear_word a b_param c word
  = ((word + sin_mix a (Z.lxor word b_param) c) mod 2 ^ 32)%Z.
Proof.
  unfold nonlinear_word, add32, wrap32.
  rewrite Z.mod_mod by lia. apply Z.add_mod_idemp_r. lia.
Qed.

(** Every word is mixed on its own, from its value after absorption. *)
Lemma nonlinear_wordwise (a b_param c : Z) (state : list Z) :
  length state = 16 ->
  nonlinear a b_param c state = nonlinear_word a b_param c <$> state.
Proof.
  intros Hlen. unfold nonlinear, STATE_SIZE.
  rewrite (for_range_map_slots (nonlinear_word a b_param c)) by lia.
  rewrite take_ge, drop_ge by lia. apply app_nil_r.
Qed.

(** ** Diffusion: proofs *)

(** After [k] turns of the diffusion loop the slots below [k] hold their
    diffused words and the slots from [k] on are untouched. *)
Lemma diffuse_prefix (state : list Z) (k : nat) :
  length state = 16 -> k <= 16 ->
  length (for_range k diffuse_step state) = 16 /\
  (forall j, k <= j -> for_range k diffuse_step state !!! j = state !!! j) /\
  (forall j, j < k -> j < 15 ->
     for_range k diffuse_step state !!! j =
     Z.lxor (state !!! j)
            (rotate_left (state !!! (j + 1)) (rot_amount (state !!! j)))).
Proof.
  intros Hlen. induction k as [|k IH]; intros Hk.
  - repeat split; [exact Hlen | intros; lia].
  - destruct IH as (IHlen & IHrest & IHdone); [lia |].
    cbn [for_range]. set (st := for_range k diffuse_step state) in *.
    unfold diffuse_step. repeat split.
    + rewrite length_insert. exact IHlen.
    + intros j Hj. rewrite list_lookup_total_insert_ne by lia.
      apply IHrest. lia.
    + intros j Hj Hj15. destruct (decide (j = k)) as [->|Hne].
      * rewrite list_lookup_total_insert_eq by lia.
        unfold STATE_SIZE. rewrite Nat.mod_small by lia.
        rewrite !IHrest by lia. reflexivity.
      * rewrite list_lookup_total_insert_ne by lia. apply IHdone; lia.
Qed.

Lemma diffuse_last_turn (state : list Z) :
  diffuse state = diffuse_step 15 (for_range 15 diffuse_step state).
Proof. unfold diffuse. change STATE_SIZE with (S 15). apply for_range_S. Qed.

(** C6: the diffusion loop writes in place in ascending order: a word
    below index 15 is combined with the still untouched next word, and word
    15 with the already diffused word 0. *)
Theorem diffuse_in_place (state : list Z) :
  length state = 16 ->
  (forall i, i < 15 ->
     diffuse state !!! i =
     Z.lxor (state !!! i)
            (rotate_left (state !!! (i + 1)) (Z.land (state !!! i) 0x1F))) /\
  diffuse state !!! 15 =
  Z.lxor (state !!! 15)
         (rotate_left (diffuse state !!! 0) (Z.land (state !!! 15) 0x1F)).
Proof.
  intros Hlen.
  destruct (diffuse_prefix state 15 Hlen) as (H15len & H15rest & H15done); [lia |].
  fold (rot_amount (state !!! 15)).
  rewrite diffuse_last_turn.
  set (st := for_range 15 diffuse_step state) in *.
  assert (Hlow : forall i, i < 15 -> diffuse_step 15 st !!! i = st !!! i).
  { intros i Hi. unfold diffuse_step.
    apply list_lookup_total_insert_ne. lia. }
  split.
  - intros i Hi. rewrite Hlow by exact Hi. apply H15done; lia.
  - rewrite (Hlow 0) by lia. unfold diffuse_step.
    rewrite list_lookup_total_insert_eq by lia.
    rewrite (H15rest 15) by lia. reflexivity.
Qed.

(** ** Blocks: proofs *)

Lemma current_block_length (input : list byte) (b : nat) :
  b < num_blocks (pad_input input) ->
  length (current_block (pad_input input) b) = 64.
Proof.
  unfold num_blocks, current_block, BLOCK_SIZE. intros Hb.
  pose proof (Nat.Div0.mul_div_le (length (pad_input input)) 64).
  rewrite length_take, length_drop. lia.
Qed.

Lemma has_bytes_full (block : list byte) (n : nat) :
  length block = 64 -> n <= 64 -> has_bytes block n = true.
Proof. intros Hlen Hn. unfold has_bytes. apply Nat.leb_le. lia. Qed.

(** C8: every block [cos_hash] processes has 64 bytes, so each guard of a
    fallback branch holds: the parameters are the three packed words, never
    the default constants, and every absorbed segment is a packed word,
    never the trailing-bytes loop. *)
Theorem fallbacks_unreachable (input : list byte) (b : nat) :
  b < num_blocks (pad_input input) ->
  let block := current_block (pad_input input) b in
  length block = 64 /\
  has_bytes block 4 = true /\
  has_bytes block 8 = true /\
  has_bytes block 12 = true /\
  derive_params block =
    (pack_be (block !!! 0) (block !!! 1) (block !!! 2) (block !!! 3),
     pack_be (block !!! 4) (block !!! 5) (block !!! 6) (block !!! 7),
     pack_be (block !!! 8) (block !!! 9) (block !!! 10) (block !!! 11)) /\
  (forall i, i < STATE_SIZE ->
     has_bytes block (i * 4 + 4) = true /\
     segment block i =
       pack_be (block !!! (i * 4)) (block !!! (i * 4 + 1))
               (block !!! (i * 4 + 2)) (block !!! (i * 4 + 3))).
Proof.
  intros Hb block.
  assert (Hlen : length block = 64) by (apply current_block_length; exact Hb).
  pose proof (has_bytes_full block 4 Hlen) as H4.
  pose proof (has_bytes_full block 8 Hlen) as H8.
  pose proof (has_bytes_full block 12 Hlen) as H12.
  split; [exact Hlen |]. split; [apply H4; lia |].
  split; [apply H8; lia |]. split; [apply H12; lia |]. split.
  - unfold derive_params. rewrite H4, H8, H12 by lia. reflexivity.
  - intros i Hi. unfold STATE_SIZE in Hi.
    assert (Hg : has_bytes block (i * 4 + 4) = true)
      by (apply has_bytes_full; [exact Hlen | lia]).
    split; [exact Hg |]. unfold segment. rewrite Hg. reflexivity.
Qed.

(** ** The state keeps its sixteen words: proofs *)

Lemma init_state_length (seed : Z) : length (init_state seed) = 16.
Proof.
  unfold init_state, STATE_SIZE.
  rewrite (for_range_fill_all (fun i => initial_mix seed (Z.of_nat i)))
    by apply length_replicate.
  rewrite length_fmap, length_seq. reflexivity.
Qed.

Lemma absorb_length (block : list byte) (state : list Z) :
  length (absorb block state) = length state.
Proof.
  unfold absorb. slot_loop (fun st : list Z => length st = length state) ltac:(reflexivity).
Qed.

Lemma nonlinear_length (a b_param c : Z) (state : list Z) :
  length (nonlinear a b_param c state) = length state.
Proof.
  unfold nonlinear. slot_loop (fun st : list Z => length st = length state) ltac:(reflexivity).
Qed.

Lemma permute_length (perm state : list Z) : length (permute perm state) = 16.
Proof.
  unfold permute.
  slot_loop (fun st : list Z => length st = 16) ltac:(apply length_replicate).
Qed.

Lemma diffuse_length (state : list Z) : length (diffuse state) = length state.
Proof.
  unfold diffuse, diffuse_step.
  slot_loop (fun st : list Z => length st = length state) ltac:(reflexivity).
Qed.

Lemma process_block_length (state : list Z) (block : list byte) :
  length (process_block state block) = 16.
Proof.
  unfold process_block. destruct (derive_params block) as [[a b_param] c].
  rewrite diffuse_length. apply permute_length.
Qed.

Lemma block_loop_length (paddedInput : list byte) (state : list Z) :
  length state = 16 -> length (block_loop paddedInput state) = 16.
Proof.
  intros Hstate. unfold block_loop.
  apply (for_range_invariant (fun st => length st = 16)); [exact Hstate |].
  intros b st _ _. apply process_block_length.
Qed.

Lemma compress_state_length (state : list Z) :
  length (compress_state state) = 4 * length state.
Proof.
  unfold compress_state.
  enough (Hacc : forall acc : list byte,
            length (fold_left (fun out word => out ++ word_bytes word) state acc)
            = length acc + 4 * length state) by apply (Hacc []).
  induction state as [|word state IH]; intros acc; cbn [fold_left length].
  - lia.
  - rewrite IH, length_app. cbn [word_bytes length]. lia.
Qed.

(** C1: the digest of every input, the empty one included, has exactly 64
    bytes: four for each of the sixteen state words. *)
Theorem cos_hash_output_length (input : list byte) :
  length (cos_hash input) = 64 /\ length (cos_hash []) = 64.
Proof.
  assert (Hlen : forall x, length (cos_hash x) = 64).
  { intros x. unfold cos_hash.
    rewrite compress_state_length, block_loop_length.
    - reflexivity.
    - apply init_state_length. }
  split; apply Hlen.
Qed.

(** ** Every stored word fits 32 bits: proofs

    The embedding stores the results of [^], [|] and [>>] without a
    [wrap32]; these lemmas show that nothing is lost. *)

Lemma wrap32_word (z : Z) : word32 (wrap32 z).
Proof. apply wrap32_range. Qed.

Lemma word32_log2 (z : Z) :
  (0 <= z)%Z -> (z = 0 \/ Z.log2 z < 32)%Z -> word32 z.
Proof.
  intros Hz [->|Hlog]; [unfold word32; lia |].
  destruct (Z.eq_dec z 0) as [->|Hne]; [unfold word32; lia |].
  split; [exact Hz |]. apply Z.log2_lt_pow2; lia.
Qed.

Lemma log2_word32 (z : Z) : word32 z -> (Z.log2 z < 32)%Z.
Proof.
  intros [Hz Hlt]. destruct (Z.eq_dec z 0) as [->|Hne]; [cbn; lia |].
  apply Z.log2_lt_pow2; lia.
Qed.

Lemma lxor_word (x y : Z) : word32 x -> word32 y -> word32 (Z.lxor x y).
Proof.
  intros Hx Hy.
  pose proof (log2_word32 x Hx). pose proof (log2_word32 y Hy).
  destruct Hx as [Hx0 _], Hy as [Hy0 _].
  apply word32_log2.
  - apply Z.lxor_nonneg. split; intros _; assumption.
  - right. pose proof (Z.log2_lxor x y Hx0 Hy0). lia.
Qed.

Lemma lor_word (x y : Z) : word32 x -> word32 y -> word32 (Z.lor x y).
Proof.
  intros Hx Hy.
  pose proof (log2_word32 x Hx). pose proof (log2_word32 y Hy).
  destruct Hx as [Hx0 _], Hy as [Hy0 _].
  apply word32_log2.
  - apply Z.lor_nonneg. split; assumption.
  - right. rewrite Z.log2_lor by assumption. lia.
Qed.

Lemma shiftr_word (x n : Z) : word32 x -> (0 <= n)%Z -> word32 (Z.shiftr x n).
Proof.
  intros [Hx0 Hx] Hn. rewrite Z.shiftr_div_pow2 by exact Hn.
  assert (Hpow : (0 < 2 ^ n)%Z) by (apply Z.pow_pos_nonneg; lia).
  split.
  - apply Z.div_pos; lia.
  - apply Z.le_lt_trans with x; [| exact Hx].
    apply Z.div_le_upper_bound; [exact Hpow |]. nia.
Qed.

Lemma lookup_total_word (l : list Z) (i : nat) :
  Forall word32 l -> word32 (l !!! i).
Proof.
  intros Hl. destruct (decide (i < length l)) as [Hi|Hi].
  - apply Forall_lookup_total_1; assumption.
  - rewrite list_lookup_total_alt.
    rewrite (proj2 (lookup_ge_None l i)) by lia. cbn. unfold word32. lia.
Qed.

Lemma seed_round_word (seed : Z) (x : byte) :
  word32 seed -> word32 (seed_round seed x).
Proof. intros Hseed. apply lxor_word; [exact Hseed | apply wrap32_word]. Qed.

Lemma derive_seed_word (input : list byte) : word32 (derive_seed input).
Proof.
  unfold derive_seed. apply (for_range_invariant word32).
  - apply wrap32_word.
  - intros i seed _ Hseed. apply seed_round_word. exact Hseed.
Qed.

(** C5: [derive_seed] returns the 32-bit value obtained by starting from
    the input length and folding every byte, in order, with
    [seed XOR (x + 0x9e3779b9 + (seed << 6) + (seed >> 2))], all modulo 2^32. *)
Theorem derive_seed_refines (input : list byte) :
  derive_seed input = derive_seed_spec input /\ word32 (derive_seed input).
Proof.
  split; [| apply derive_seed_word].
  unfold derive_seed, derive_seed_spec.
  rewrite (for_range_lookup_fold seed_round). fold (wrap32 (Z.of_nat (length input))).
  generalize (wrap32 (Z.of_nat (length input))).
  induction input as [|x input IH]; intros seed; [reflexivity |].
  cbn [fold_left]. rewrite seed_round_spec. apply IH.
Qed.

Lemma initial_mix_word (seed index : Z) :
  word32 seed -> word32 (initial_mix seed index).
Proof.
  intros Hseed. unfold initial_mix, mul32, shr32. cbv zeta.
  repeat first
    [ apply wrap32_word
    | apply lxor_word
    | apply shiftr_word; [| lia]
    | exact Hseed ].
Qed.

Lemma init_state_words (seed : Z) :
  word32 seed -> Forall word32 (init_state seed).
Proof.
  intros Hseed. unfold init_state, STATE_SIZE.
  rewrite (for_range_fill_all (fun i => initial_mix seed (Z.of_nat i)))
    by apply length_replicate.
  apply Forall_fmap, Forall_forall. intros i _. cbn.
  apply initial_mix_word. exact Hseed.
Qed.

Lemma absorb_words (block : list byte) (state : list Z) :
  Forall word32 state -> Forall word32 (absorb block state).
Proof.
  intros Hstate. unfold absorb.
  slot_loop (Forall word32) ltac:(assumption). apply wrap32_word.
Qed.

Lemma nonlinear_words (a b_param c : Z) (state : list Z) :
  Forall word32 state -> Forall word32 (nonlinear a b_param c state).
Proof.
  intros Hstate. unfold nonlinear.
  slot_loop (Forall word32) ltac:(assumption). apply wrap32_word.
Qed.

Lemma permute_words (perm state : list Z) :
  Forall word32 state -> Forall word32 (permute perm state).
Proof.
  intros Hstate. unfold permute.
  apply (for_range_invariant (Forall word32)).
  - apply Forall_replicate. unfold word32. lia.
  - intros i st _ Hst. apply Forall_insert; [exact Hst |].
    apply lookup_total_word. exact Hstate.
Qed.

Lemma shift_count_nonneg (n : Z) : (0 <= n)%Z -> (0 <= shift_count n)%Z.
Proof.
  intros Hn. unfold shift_count. destruct shift_count_masked; [| exact Hn].
  apply Z.land_nonneg. lia.
Qed.

Lemma rotate_left_word (value shift : Z) :
  word32 value -> word32 (rotate_left value shift).
Proof.
  intros Hvalue. unfold rotate_left. apply lor_word.
  - apply wrap32_word.
  - apply shiftr_word; [exact Hvalue |].
    apply shift_count_nonneg, wrap32_range.
Qed.

Lemma diffuse_words (state : list Z) :
  Forall word32 state -> Forall word32 (diffuse state).
Proof.
  intros Hstate. unfold diffuse.
  apply (for_range_invariant (Forall word32)); [exact Hstate |].
  intros i st _ Hst. unfold diffuse_step.
  apply Forall_insert; [exact Hst |].
  apply lxor_word; [| apply rotate_left_word]; apply lookup_total_word, Hst.
Qed.

Lemma process_block_words (state : list Z) (block : list byte) :
  Forall word32 state -> Forall word32 (process_block state block).
Proof.
  intros Hstate. unfold process_block.
  destruct (derive_params block) as [[a b_param] c].
  apply diffuse_words, permute_words, nonlinear_words, absorb_words, Hstate.
Qed.

(** The state that [cos_hash] compresses: sixteen words of 32 bits. *)
Lemma final_state_words (input : list byte) :
  let state := block_loop (pad_input input) (init_state (derive_seed input)) in
  length state = 16 /\ Forall word32 state.
Proof.
  split.
  - apply block_loop_length, init_state_length.
  - unfold block_loop. apply (for_range_invariant (Forall word32)).
    + apply init_state_words, derive_seed_word.
    + intros b st _ Hst. apply process_block_words. exact Hst.
Qed.

(** ** Bytes and big-endian words: proofs *)

Lemma byte_val_range (b : byte) : (0 <= byte_val b < 256)%Z.
Proof.
  unfold byte_val. pose proof (Byte.to_N_bounded b). lia.
Qed.

Lemma byte_val_of_Z (z : Z) : byte_val (byte_of_Z z) = (z mod 256)%Z.
Proof.
  unfold byte_val, byte_of_Z.
  pose proof (Z.mod_pos_bound z 256 ltac:(lia)) as Hz.
  destruct (Byte.of_N (Z.to_N (z mod 256))) as [b|] eqn:Hb.
  - apply Byte.to_of_N in Hb. rewrite Hb. lia.
  - apply Byte.of_N_None_iff in Hb. lia.
Qed.

Lemma byte_of_Z_val (b : byte) : byte_of_Z (byte_val b) = b.
Proof.
  unfold byte_of_Z. rewrite Z.mod_small by apply byte_val_range.
  unfold byte_val. rewrite N2Z.id, Byte.of_to_N. reflexivity.
Qed.

Lemma byte_val_inj (x y : byte) : byte_val x = byte_val y -> x = y.
Proof.
  intros Hxy. rewrite <- (byte_of_Z_val x), <- (byte_of_Z_val y), Hxy.
  reflexivity.
Qed.

(** Bits that do not overlap add up. *)
Lemma lor_shift_add (hi lo n : Z) :
  (0 <= n)%Z -> (0 <= lo < 2 ^ n)%Z ->
  Z.lor (hi * 2 ^ n) lo = (hi * 2 ^ n + lo)%Z.
Proof.
  intros Hn Hlo.
  assert (Hland : Z.land (hi * 2 ^ n) lo = 0%Z).
  { apply Z.bits_inj'. intros k Hk. rewrite Z.land_spec, Z.bits_0.
    destruct (Z.lt_ge_cases k n) as [Hlt|Hge].
    - rewrite Z.mul_pow2_bits_low by exact Hlt. reflexivity.
    - rewrite <- (Z.mod_small lo (2 ^ n)) by exact Hlo.
      rewrite Z.mod_pow2_bits_high by lia. apply andb_false_r. }
  rewrite <- (Z.lxor_lor _ _ Hland). symmetry.
  apply Z.add_nocarry_lxor. exact Hland.
Qed.

Lemma pack_be_value (b0 b1 b2 b3 : byte) :
  pack_be b0 b1 b2 b3
  = (byte_val b0 * 2 ^ 24 + byte_val b1 * 2 ^ 16 + byte_val b2 * 2 ^ 8
     + byte_val b3)%Z.
Proof.
  pose proof (byte_val_range b0). pose proof (byte_val_range b1).
  pose proof (byte_val_range b2). pose proof (byte_val_range b3).
  unfold pack_be. rewrite !Z.shiftl_mul_pow2 by lia.
  rewrite (lor_shift_add (byte_val b0) _ 24) by lia.
  replace (byte_val b0 * 2 ^ 24 + byte_val b1 * 2 ^ 16)%Z
    with ((byte_val b0 * 2 ^ 8 + byte_val b1) * 2 ^ 16)%Z by lia.
  rewrite (lor_shift_add _ _ 16) by lia.
  replace ((byte_val b0 * 2 ^ 8 + byte_val b1) * 2 ^ 16 + byte_val b2 * 2 ^ 8)%Z
    with (((byte_val b0 * 2 ^ 8 + byte_val b1) * 2 ^ 8 + byte_val b2) * 2 ^ 8)%Z
    by lia.
  rewrite (lor_shift_add _ _ 8) by lia.
  rewrite wrap32_small by lia. lia.
Qed.

Lemma word_byte_value (word k : Z) :
  (0 <= k)%Z ->
  byte_val (byte_of_Z (Z.land (shr32 word k) 0xFF)) = ((word / 2 ^ k) mod 256)%Z.
Proof.
  intros Hk. rewrite byte_val_of_Z. unfold shr32.
  change 0xFF%Z with (Z.ones 8). rewrite Z.land_ones by lia.
  rewrite Z.shiftr_div_pow2 by exact Hk.
  change (2 ^ 8)%Z with 256%Z. apply Z.mod_mod. lia.
Qed.

Lemma word_as_bytes (w : Z) :
  (0 <= w < 4294967296)%Z ->
  ((w / 16777216) mod 256 * 16777216 + (w / 65536) mod 256 * 65536
   + (w / 256) mod 256 * 256 + w mod 256)%Z = w.
Proof.
  intros Hw.
  replace (w / 65536)%Z with (w / 256 / 256)%Z
    by (rewrite Z.div_div by lia; reflexivity).
  replace (w / 16777216)%Z with (w / 256 / 256 / 256)%Z
    by (rewrite !Z.div_div by lia; reflexivity).
  pose proof (Z.div_mod w 256 ltac:(lia)) as H1.
  pose proof (Z.mod_pos_bound w 256 ltac:(lia)).
  set (q3 := (w / 256)%Z) in *.
  pose proof (Z.div_mod q3 256 ltac:(lia)) as H2.
  pose proof (Z.mod_pos_bound q3 256 ltac:(lia)).
  set (q2 := (q3 / 256)%Z) in *.
  pose proof (Z.div_mod q2 256 ltac:(lia)) as H3.
  pose proof (Z.mod_pos_bound q2 256 ltac:(lia)).
  set (q1 := (q2 / 256)%Z) in *.
  assert (0 <= q1 < 256)%Z by lia.
  rewrite (Z.mod_small q1) by lia.
  generalize dependent (w mod 256)%Z. generalize dependent (q3 mod 256)%Z.
  generalize dependent (q2 mod 256)%Z. intros. lia.
Qed.

Lemma sum_as_bytes (b0 b1 b2 b3 : Z) :
  (0 <= b0 < 256)%Z -> (0 <= b1 < 256)%Z ->
  (0 <= b2 < 256)%Z -> (0 <= b3 < 256)%Z ->
  let v := (b0 * 16777216 + b1 * 65536 + b2 * 256 + b3)%Z in
  ((v / 16777216) mod 256 = b0 /\ (v / 65536) mod 256 = b1 /\
   (v / 256) mod 256 = b2 /\ (v / 1) mod 256 = b3)%Z.
Proof.
  intros H0 H1 H2 H3 v. rewrite Z.div_1_r.
  replace (v / 65536)%Z with (v / 256 / 256)%Z
    by (rewrite Z.div_div by lia; reflexivity).
  replace (v / 16777216)%Z with (v / 256 / 256 / 256)%Z
    by (rewrite !Z.div_div by lia; reflexivity).
  assert (Hq3 : (v / 256 = b0 * 65536 + b1 * 256 + b2)%Z).
  { symmetry. apply Z.div_unique with b3; subst v; lia. }
  assert (Hq2 : (v / 256 / 256 = b0 * 256 + b1)%Z).
  { rewrite Hq3. symmetry. apply Z.div_unique with b2; lia. }
  assert (Hq1 : (v / 256 / 256 / 256 = b0)%Z).
  { rewrite Hq2. symmetry. apply Z.div_unique with b1; lia. }
  rewrite Hq1, Hq2, Hq3. repeat split.
  - apply Z.mod_small; lia.
  - symmetry. apply Z.mod_unique with b0; lia.
  - symmetry. apply Z.mod_unique with (b0 * 256 + b1)%Z; lia.
  - symmetry. apply Z.mod_unique with (b0 * 65536 + b1 * 256 + b2)%Z; subst v; lia.
Qed.

Lemma pack_be_word_bytes (word : Z) (rest : list byte) :
  word32 word ->
  decompress_state (word_bytes word ++ rest) = word :: decompress_state rest.
Proof.
  intros Hw. cbn [word_bytes app decompress_state]. f_equal.
  rewrite pack_be_value.
  rewrite <- (Z.shiftr_0_r word) at 4. fold (shr32 word 0).
  rewrite !word_byte_value by lia.
  change (2 ^ 0)%Z with 1%Z. rewrite Z.div_1_r.
  apply word_as_bytes. exact Hw.
Qed.

Lemma word_bytes_pack_be (b0 b1 b2 b3 : byte) :
  word_bytes (pack_be b0 b1 b2 b3) = [b0; b1; b2; b3].
Proof.
  destruct (sum_as_bytes (byte_val b0) (byte_val b1) (byte_val b2) (byte_val b3))
    as (H0 & H1 & H2 & H3); try apply byte_val_range.
  assert (Hbyte : forall (k : Z) (b : byte),
            (0 <= k)%Z ->
            ((pack_be b0 b1 b2 b3 / 2 ^ k) mod 256)%Z = byte_val b ->
            byte_of_Z (Z.land (shr32 (pack_be b0 b1 b2 b3) k) 0xFF) = b).
  { intros k b Hk Hv. apply byte_val_inj.
    rewrite word_byte_value by exact Hk. exact Hv. }
  unfold word_bytes.
  rewrite <- (Z.shiftr_0_r (pack_be b0 b1 b2 b3)) at 4.
  fold (shr32 (pack_be b0 b1 b2 b3) 0).
  rewrite (Hbyte 24%Z b0), (Hbyte 16%Z b1), (Hbyte 8%Z b2), (Hbyte 0%Z b3);
    [reflexivity | lia | | lia | | lia | | lia | ];
    rewrite pack_be_value; assumption.
Qed.

Lemma compress_state_concat (state : list Z) :
  compress_state state = concat (map word_bytes state).
Proof.
  unfold compress_state.
  enough (Hacc : forall acc : list byte,
            fold_left (fun out word => out ++ word_bytes word) state acc
            = acc ++ concat (map word_bytes state)) by apply (Hacc []).
  induction state as [|word state IH]; intros acc; cbn [fold_left map concat].
  - symmetry. apply app_nil_r.
  - rewrite IH, <- app_assoc. reflexivity.
Qed.

(** X1: the digest bytes read back big-endian, four at a time, are the
    state words: the serialisation loses nothing of a 32-bit state. *)
Theorem compress_state_round_trip (state : list Z) :
  Forall word32 state -> decompress_state (compress_state state) = state.
Proof.
  intros Hstate. rewrite compress_state_concat.
  induction Hstate as [|word state Hword _ IH]; [reflexivity |].
  cbn [map concat]. rewrite pack_be_word_bytes by exact Hword.
  rewrite IH. reflexivity.
Qed.

(** X2: conversely, any byte sequence of whole 4-byte groups is the
    serialisation of the words it decodes to. *)
Theorem decompress_state_round_trip (bytes : list byte) :
  length bytes mod 4 = 0 -> compress_state (decompress_state bytes) = bytes.
Proof.
  intros Hlen. apply Nat.Div0.div_exact in Hlen.
  remember (length bytes / 4) as n eqn:Hn. clear Hn.
  revert bytes Hlen. induction n as [|n IH]; intros bytes Hlen.
  - destruct bytes; [reflexivity | cbn in Hlen; lia].
  - destruct bytes as [|b0 [|b1 [|b2 [|b3 rest]]]]; cbn [length] in Hlen; try lia.
    cbn [decompress_state]. rewrite compress_state_concat. cbn [map concat].
    rewrite word_bytes_pack_be, <- compress_state_concat, IH by lia.
    reflexivity.
Qed.

(** X3: the digest of [cos_hash] decodes to the whole final state: the
    output step discards nothing of the sixteen words. *)
Theorem cos_hash_exposes_state (input : list byte) :
  decompress_state (cos_hash input)
  = block_loop (pad_input input) (init_state (derive_seed input)).
Proof.
  unfold cos_hash. apply compress_state_round_trip.
  apply (final_state_words input).
Qed.

(** ** Block count and block layout: proofs *)

Lemma pad_input_explicit (input : list byte) :
  pad_input input
  = input ++ x80 :: repeat x00 (63 - length input mod 64).
Proof.
  destruct (pad_input_shape input) as (k & Hk & Hmod & Hmin).
  assert (Hk63 : k <= 63).
  { destruct (le_lt_dec k 63) as [Hle|Hgt]; [exact Hle | exfalso].
    apply (Hmin (k - 64)); [lia |].
    rewrite <- (Nat.Div0.mod_add _ 1 64).
    replace (length input + 1 + (k - 64) + 1 * 64) with (length input + 1 + k)
      by lia.
    exact Hmod. }
  rewrite Hk. do 3 f_equal.
  pose proof (Nat.div_mod_eq (length input) 64).
  pose proof (Nat.mod_upper_bound (length input) 64).
  apply Nat.Div0.div_exact in Hmod. lia.
Qed.

(** X4: an input of [n] bytes is padded to [64 * (n / 64 + 1)] bytes and
    processed as [n / 64 + 1] blocks. *)
Theorem num_blocks_pad_input (input : list byte) :
  length (pad_input input) = 64 * (length input / 64 + 1) /\
  num_blocks (pad_input input) = length input / 64 + 1.
Proof.
  assert (Hlen : length (pad_input input) = 64 * (length input / 64 + 1)).
  { rewrite pad_input_explicit, length_app. cbn [length].
    rewrite repeat_length.
    pose proof (Nat.div_mod_eq (length input) 64).
    pose proof (Nat.mod_upper_bound (length input) 64). lia. }
  split; [exact Hlen |].
  unfold num_blocks, BLOCK_SIZE. rewrite Hlen, Nat.mul_comm.
  apply Nat.div_mul. lia.
Qed.

Lemma blocks_concat_take (l : list byte) (n : nat) :
  concat (map (current_block l) (seq 0 n)) = take (n * BLOCK_SIZE) l.
Proof.
  induction n as [|n IH]; [reflexivity |].
  rewrite seq_S, map_app, concat_app, IH. cbn [map concat Nat.add].
  rewrite app_nil_r. unfold current_block.
  rewrite take_take_drop. f_equal. lia.
Qed.

(** X5: the blocks the loop visits, in order, are the padded input: no byte
    is skipped, repeated or reordered. *)
Theorem blocks_partition_padded_input (input : list byte) :
  concat (map (current_block (pad_input input))
              (seq 0 (num_blocks (pad_input input))))
  = pad_input input.
Proof.
  rewrite blocks_concat_take. apply take_ge.
  destruct (num_blocks_pad_input input) as [Hlen Hnum].
  rewrite Hnum, Hlen. unfold BLOCK_SIZE. lia.
Qed.

(** X6: every block but the last is a block of the input itself; the last
    block holds the remaining input bytes, the 0x80 marker, and zero bytes
    up to 64. *)
Theorem block_layout (input : list byte) (b : nat) :
  (b < length input / 64 ->
   current_block (pad_input input) b = take 64 (drop (b * 64) input)) /\
  current_block (pad_input input) (length input / 64)
  = drop (length input / 64 * 64) input
    ++ x80 :: repeat x00 (63 - length input mod 64).
Proof.
  pose proof (Nat.div_mod_eq (length input) 64) as Hdiv.
  pose proof (Nat.mod_upper_bound (length input) 64) as Hmod.
  unfold current_block, BLOCK_SIZE. rewrite pad_input_explicit. split.
  - intros Hb. rewrite drop_app_le by lia.
    apply take_app_le. rewrite length_drop. lia.
  - rewrite drop_app_le by lia. apply take_ge.
    rewrite length_app, length_drop. cbn [length]. rewrite repeat_length. lia.
Qed.

(** ** Rotation is a rotation: proofs *)

Lemma shift_count_small (n : Z) : (0 <= n < 32)%Z -> shift_count n = n.
Proof.
  intros Hn. unfold shift_count. destruct shift_count_masked; [| reflexivity].
  change 31%Z with (Z.ones 5). rewrite Z.land_ones by lia.
  apply Z.mod_small. exact Hn.
Qed.

Lemma rotate_left_split (value shift : Z) :
  word32 value -> (0 < shift < 32)%Z ->
  rotate_left value shift
  = ((value mod 2 ^ (32 - shift)) * 2 ^ shift + value / 2 ^ (32 - shift))%Z.
Proof.
  intros [Hv0 Hv] Hs. unfold rotate_left.
  rewrite (wrap32_small (32 - shift)) by lia.
  rewrite !shift_count_small by lia.
  rewrite Z.shiftl_mul_pow2, Z.shiftr_div_pow2 by lia.
  assert (Hpow : (2 ^ 32 = 2 ^ (32 - shift) * 2 ^ shift)%Z).
  { rewrite <- Z.pow_add_r by lia. f_equal. lia. }
  assert (Hlo : (0 < 2 ^ shift)%Z) by (apply Z.pow_pos_nonneg; lia).
  assert (Hhi : (0 < 2 ^ (32 - shift))%Z) by (apply Z.pow_pos_nonneg; lia).
  unfold wrap32. rewrite Hpow, Z.mul_mod_distr_r by lia.
  apply lor_shift_add; [lia |]. split.
  - apply Z.div_pos; lia.
  - apply Z.div_lt_upper_bound; [exact Hhi |]. rewrite <- Hpow. exact Hv.
Qed.

(** X7: for a shift from 1 to 31 [rotate_left] moves the top [shift] bits
    of a 32-bit word to the bottom, and rotating on by [32 - shift] gives
    the word back. *)
Theorem rotate_left_round_trip (value shift : Z) :
  word32 value -> (0 < shift < 32)%Z ->
  rotate_left value shift
  = ((value mod 2 ^ (32 - shift)) * 2 ^ shift + value / 2 ^ (32 - shift))%Z /\
  rotate_left (rotate_left value shift) (32 - shift) = value.
Proof.
  intros Hvalue Hs. split; [apply rotate_left_split; assumption |].
  rewrite (rotate_left_split (rotate_left value shift))
    by (try apply rotate_left_word; try lia; exact Hvalue).
  rewrite rotate_left_split by assumption.
  replace (32 - (32 - shift))%Z with shift by lia.
  set (t := (32 - shift)%Z).
  assert (Hlo : (0 < 2 ^ shift)%Z) by (apply Z.pow_pos_nonneg; lia).
  assert (Hhi : (0 < 2 ^ t)%Z) by (apply Z.pow_pos_nonneg; lia).
  assert (Hpow : (2 ^ 32 = 2 ^ t * 2 ^ shift)%Z).
  { rewrite <- Z.pow_add_r by lia. f_equal. lia. }
  assert (Htop : (0 <= value / 2 ^ t < 2 ^ shift)%Z).
  { split; [apply Z.div_pos; destruct Hvalue; lia |].
    apply Z.div_lt_upper_bound; [exact Hhi |].
    rewrite <- Hpow. apply Hvalue. }
  set (lo := (value mod 2 ^ t)%Z). set (hi := (value / 2 ^ t)%Z) in *.
  assert (Hm : ((lo * 2 ^ shift + hi) mod 2 ^ shift = hi)%Z).
  { rewrite Z.add_comm, Z.mod_add by lia. apply Z.mod_small. exact Htop. }
  assert (Hd : ((lo * 2 ^ shift + hi) / 2 ^ shift = lo)%Z).
  { rewrite Z.add_comm, Z.div_add by lia.
    rewrite Z.div_small by exact Htop. apply Z.add_0_l. }
  rewrite Hm, Hd. subst lo hi.
  rewrite (Z.mul_comm _ (2 ^ t)).
  symmetry. apply Z.div_mod. lia.
Qed.

(** ** The initial mix can be undone: proofs *)

Lemma word32_high_bit (x n : Z) :
  word32 x -> (32 <= n)%Z -> Z.testbit x n = false.
Proof.
  intros Hx Hn. apply Z.bits_above_log2; [apply Hx |].
  pose proof (log2_word32 x Hx). lia.
Qed.

Lemma xorshift16_inverse (x : Z) :
  word32 x ->
  let y := Z.lxor x (shr32 x 16) in
  Z.lxor y (shr32 y 16) = x.
Proof.
  intros Hx y. subst y. unfold shr32. apply Z.bits_inj'. intros n Hn.
  rewrite !Z.lxor_spec, !Z.shiftr_spec, !Z.lxor_spec, !Z.shiftr_spec by lia.
  replace (n + 16 + 16)%Z with (n + 32)%Z by lia.
  rewrite (word32_high_bit x (n + 32)) by (assumption || lia).
  destruct (Z.testbit x n), (Z.testbit x (n + 16)); reflexivity.
Qed.

Lemma xorshift13_inverse (x : Z) :
  word32 x ->
  let y := Z.lxor x (shr32 x 13) in
  Z.lxor (Z.lxor y (shr32 y 13)) (shr32 y 26) = x.
Proof.
  intros Hx y. subst y. unfold shr32. apply Z.bits_inj'. intros n Hn.
  rewrite !Z.lxor_spec, !Z.shiftr_spec, !Z.lxor_spec, !Z.shiftr_spec by lia.
  replace (n + 13 + 13)%Z with (n + 26)%Z by lia.
  replace (n + 26 + 13)%Z with (n + 39)%Z by lia.
  rewrite (word32_high_bit x (n + 39)) by (assumption || lia).
  destruct (Z.testbit x n), (Z.testbit x (n + 13)), (Z.testbit x (n + 26));
    reflexivity.
Qed.

Lemma mul32_inverse (x c c' : Z) :
  word32 x -> ((c * c') mod 2 ^ 32 = 1)%Z -> mul32 (mul32 x c) c' = x.
Proof.
  intros Hx Hc. unfold mul32, wrap32.
  rewrite Z.mul_mod_idemp_l, <- Z.mul_assoc by lia.
  rewrite <- Z.mul_mod_idemp_r, Hc, Z.mul_1_r by lia.
  apply Z.mod_small. exact Hx.
Qed.

Lemma lxor_cancel_r (x k : Z) : Z.lxor (Z.lxor x k) k = x.
Proof. rewrite Z.lxor_assoc, Z.lxor_nilpotent. apply Z.lxor_0_r. Qed.

Lemma initial_unmix_mix (seed index : Z) :
  word32 seed -> initial_unmix (initial_mix seed index) index = seed.
Proof.
  intros Hseed. unfold initial_mix, initial_unmix. cbv zeta.
  set (v0 := Z.lxor seed (mul32 index 0x85ebca6b)).
  assert (H0 : word32 v0) by (apply lxor_word; [exact Hseed | apply wrap32_word]).
  set (v1 := Z.lxor v0 (shr32 v0 16)).
  assert (H1 : word32 v1)
    by (apply lxor_word; [exact H0 | apply shiftr_word; [exact H0 | lia]]).
  set (v2 := mul32 v1 0x85ebca6b).
  assert (H2 : word32 v2) by apply wrap32_word.
  set (v3 := Z.lxor v2 (shr32 v2 13)).
  assert (H3 : word32 v3)
    by (apply lxor_word; [exact H2 | apply shiftr_word; [exact H2 | lia]]).
  set (v4 := mul32 v3 0xc2b2ae35).
  assert (H4 : word32 v4) by apply wrap32_word.
  rewrite (xorshift16_inverse v4 H4).
  unfold v4. rewrite (mul32_inverse v3) by (exact H3 || reflexivity).
  unfold v3. rewrite (xorshift13_inverse v2 H2).
  unfold v2. rewrite (mul32_inverse v1) by (exact H1 || reflexivity).
  unfold v1. rewrite (xorshift16_inverse v0 H0).
  unfold v0. apply lxor_cancel_r.
Qed.

Lemma init_state_lookup (seed : Z) (i : nat) :
  i < 16 -> init_state seed !!! i = initial_mix seed (Z.of_nat i).
Proof.
  intros Hi. unfold init_state, STATE_SIZE.
  rewrite (for_range_fill_all (fun i => initial_mix seed (Z.of_nat i)))
    by apply length_replicate.
  rewrite list_lookup_total_alt, list_lookup_fmap.
  rewrite lookup_seq_lt by exact Hi. reflexivity.
Qed.

(** X8: [initial_mix] is invertible in its seed, so two different 32-bit
    seeds give initial states that differ in every one of the 16 words. *)
Theorem init_state_separates_seeds (seed1 seed2 : Z) (i : nat) :
  word32 seed1 -> word32 seed2 -> seed1 <> seed2 -> i < 16 ->
  initial_unmix (initial_mix seed1 (Z.of_nat i)) (Z.of_nat i) = seed1 /\
  init_state seed1 !!! i <> init_state seed2 !!! i.
Proof.
  intros H1 H2 Hne Hi. split; [apply initial_unmix_mix; exact H1 |].
  rewrite !init_state_lookup by exact Hi. intros Heq. apply Hne.
  rewrite <- (initial_unmix_mix seed1 (Z.of_nat i) H1).
  rewrite <- (initial_unmix_mix seed2 (Z.of_nat i) H2).
  rewrite Heq. reflexivity.
Qed.

(** ** The seed reacts to the last byte: proofs *)

Lemma derive_seed_fold (input : list byte) :
  derive_seed input
  = fold_left seed_round input (wrap32 (Z.of_nat (length input))).
Proof. unfold derive_seed. apply (for_range_lookup_fold seed_round). Qed.

Lemma seed_round_inj (seed : Z) (x y : byte) :
  seed_round seed x = seed_round seed y -> x = y.
Proof.
  rewrite !seed_round_spec. intros Heq.
  apply (f_equal (Z.lxor seed)) in Heq.
  rewrite <- !Z.lxor_assoc, !Z.lxor_nilpotent, !Z.lxor_0_l in Heq.
  apply byte_val_inj.
  pose proof (byte_val_range x) as Hx. pose proof (byte_val_range y) as Hy.
  revert Hx Hy Heq.
  generalize (byte_val x) (byte_val y) (Z.shiftl seed 6) (Z.shiftr seed 2).
  intros a b p q. change (2 ^ 32)%Z with 4294967296%Z.
  change 0x9e3779b9%Z with 2654435769%Z. intros Ha Hb Heq.
  apply Z.sub_move_0_r.
  assert (Hdiv : ((a + 2654435769 + p + q) - (b + 2654435769 + p + q)
                  = 4294967296 * ((a + 2654435769 + p + q) / 4294967296
                                  - (b + 2654435769 + p + q) / 4294967296))%Z).
  { rewrite (Z.div_mod (a + 2654435769 + p + q) 4294967296) at 1 by lia.
    rewrite (Z.div_mod (b + 2654435769 + p + q) 4294967296) at 1 by lia.
    rewrite Heq. ring. }
  clear Heq. revert Hdiv.
  generalize ((a + 2654435769 + p + q) / 4294967296)%Z
             ((b + 2654435769 + p + q) / 4294967296)%Z.
  intros d1 d2 Hdiv. lia.
Qed.

(** X9: two inputs that differ only in their last byte have different
    seeds. *)
Theorem derive_seed_last_byte (input : list byte) (x y : byte) :
  x <> y -> derive_seed (input ++ [x]) <> derive_seed (input ++ [y]).
Proof.
  intros Hne Heq. apply Hne.
  rewrite !derive_seed_fold, !fold_left_app, !length_app in Heq.
  cbn [fold_left length] in Heq.
  apply seed_round_inj in Heq. exact Heq.
Qed.

(** ** Bytes absorbed from a block: proofs *)

Lemma lor_byte_step (acc : Z) (x : byte) :
  (0 <= acc < 2 ^ 24)%Z ->
  Z.lor (shl32 acc 8) (byte_val x) = (acc * 256 + byte_val x)%Z.
Proof.
  intros Hacc. pose proof (byte_val_range x).
  unfold shl32. rewrite Z.shiftl_mul_pow2 by lia.
  rewrite wrap32_small by lia.
  rewrite lor_shift_add by lia. reflexivity.
Qed.

Lemma lor_fold_be (l : list byte) (acc : Z) :
  (0 <= acc)%Z -> ((acc + 1) * 256 ^ Z.of_nat (length l) <= 2 ^ 32)%Z ->
  fold_left (fun seg x => Z.lor (shl32 seg 8) (byte_val x)) l acc
  = fold_left (fun acc x => (acc * 256 + byte_val x)%Z) l acc.
Proof.
  revert acc. induction l as [|x l IH]; intros acc Hacc Hfit; [reflexivity |].
  cbn [fold_left length] in *.
  rewrite Nat2Z.inj_succ, Z.pow_succ_r in Hfit by lia.
  pose proof (byte_val_range x) as Hx.
  assert (Hpow : (1 <= 256 ^ Z.of_nat (length l))%Z)
    by (apply (Z.pow_le_mono_r 256 0); lia).
  rewrite lor_byte_step by (change (2 ^ 32)%Z with (2 ^ 24 * 256)%Z in Hfit; nia).
  apply IH; [lia | nia].
Qed.

Lemma lor_fold_be_short (l : list byte) :
  length l <= 4 ->
  fold_left (fun seg x => Z.lor (shl32 seg 8) (byte_val x)) l 0%Z = be_value l.
Proof.
  intros Hl. apply lor_fold_be; [lia |].
  change (2 ^ 32)%Z with (256 ^ 4)%Z. rewrite Z.mul_1_l.
  apply Z.pow_le_mono_r; lia.
Qed.

Lemma take_4_drop (block : list byte) (offset : nat) :
  offset + 4 <= length block ->
  take 4 (drop offset block)
  = [block !!! offset; block !!! (offset + 1);
     block !!! (offset + 2); block !!! (offset + 3)].
Proof.
  intros Hlen. apply list_eq. intros k.
  destruct (decide (k < 4)) as [Hk|Hk].
  - rewrite lookup_take_lt, lookup_drop by exact Hk.
    rewrite (list_lookup_lookup_total_lt block (offset + k)) by lia.
    destruct k as [|[|[|[|k]]]]; try lia; cbn; rewrite ?Nat.add_0_r; reflexivity.
  - rewrite lookup_take_ge by lia.
    destruct k as [|[|[|[|k]]]]; try lia; reflexivity.
Qed.

Lemma pack_be_be_value (b0 b1 b2 b3 : byte) :
  pack_be b0 b1 b2 b3 = be_value [b0; b1; b2; b3].
Proof.
  rewrite pack_be_value. unfold be_value. cbn [fold_left]. lia.
Qed.

Lemma trailing_segment_fold (block : list byte) (offset : nat) :
  trailing_segment block offset
  = fold_left (fun seg x => Z.lor (shl32 seg 8) (byte_val x))
              (drop offset block) 0%Z.
Proof.
  unfold trailing_segment.
  rewrite <- (for_range_lookup_fold
                (fun seg x => Z.lor (shl32 seg 8) (byte_val x))
                (drop offset block)).
  rewrite length_drop. apply for_range_ext. intros k seg _.
  rewrite lookup_total_drop. reflexivity.
Qed.

(** X10: the segment absorbed into word [i] is the big-endian number the
    block spells at bytes [4i .. 4i+3]; a block that ends early contributes
    the bytes that are left, right-aligned, and zero when none is left. *)
Theorem segment_be_value (block : list byte) (i : nat) :
  segment block i = be_value (take 4 (drop (i * 4) block)) /\
  (length block <= i * 4 -> segment block i = 0%Z).
Proof.
  assert (Hseg : segment block i = be_value (take 4 (drop (i * 4) block))).
  { unfold segment, has_bytes.
    destruct (Nat.leb_spec (i * 4 + 4) (length block)) as [Hfull|Hshort].
    - rewrite take_4_drop by exact Hfull. apply pack_be_be_value.
    - rewrite trailing_segment_fold.
      rewrite (take_ge (drop (i * 4) block)) by (rewrite length_drop; lia).
      apply lor_fold_be_short. rewrite length_drop. lia. }
  split; [exact Hseg |].
  intros Hend. rewrite Hseg, drop_ge by exact Hend. reflexivity.
Qed.

(** A loop that rewrites slot [i] from its own content and its index. *)
Lemma for_range_slotwise (g : nat -> Z -> Z) (n : nat) (l : list Z) :
  n <= length l ->
  length (for_range n (fun i st => <[i := g i (st !!! i)]> st) l) = length l /\
  (forall j, j < n ->
     for_range n (fun i st => <[i := g i (st !!! i)]> st) l !!! j
     = g j (l !!! j)) /\
  (forall j, n <= j ->
     for_range n (fun i st => <[i := g i (st !!! i)]> st) l !!! j = l !!! j).
Proof.
  induction n as [|n IH]; intros Hn.
  - repeat split; intros; lia || reflexivity.
  - destruct IH as (IHlen & IHdone & IHrest); [lia |].
    cbn [for_range].
    set (st := for_range n (fun i st => <[i := g i (st !!! i)]> st) l) in *.
    split; [rewrite length_insert; exact IHlen |]. split.
    + intros j Hj. destruct (decide (j = n)) as [->|Hne].
      * rewrite list_lookup_total_insert_eq by lia.
        rewrite IHrest by lia. reflexivity.
      * rewrite list_lookup_total_insert_ne by lia. apply IHdone. lia.
    + intros j Hj. rewrite list_lookup_total_insert_ne by lia.
      apply IHrest. lia.
Qed.

(** X11: absorption adds to every state word, modulo 2^32, the segment of
    the block at that word's offset, each word once and from its value
    before the phase. *)
Theorem absorb_wordwise (block : list byte) (state : list Z) (i : nat) :
  length state = 16 -> i < 16 ->
  absorb block state !!! i
  = ((state !!! i + be_value (take 4 (drop (i * 4) block))) mod 2 ^ 32)%Z.
Proof.
  intros Hlen Hi. unfold absorb, STATE_SIZE.
  destruct (for_range_slotwise
              (fun i w => wrap32 (add32 w (segment block i))) 16 state)
    as (_ & Hdone & _); [lia |].
  rewrite Hdone by exact Hi.
  destruct (segment_be_value block i) as [-> _].
  unfold add32, wrap32. apply Z.mod_mod. lia.
Qed.

(** X12: the nonlinear phase replaces every word [w] by
    [(w + mix) mod 2^32], where [mix] is the signed result of the
    floating-point computation on [a], [w XOR b] and [c]; the words do not
    influence one another. *)
Theorem nonlinear_adds_mix (a b_param c : Z) (state : list Z) :
  length state = 16 ->
  nonlinear a b_param c state
  = (fun w => ((w + sin_mix a (Z.lxor w b_param) c) mod 2 ^ 32)%Z) <$> state.
Proof.
  intros Hlen. rewrite nonlinear_wordwise by exact Hlen.
  apply list_fmap_ext. intros i w _. apply nonlinear_word_wraps.
Qed.

(** ** What the block parameters depend on: proofs *)

Lemma block_seed_be_value (block : list byte) :
  block_seed block = be_value (take 4 block).
Proof.
  unfold block_seed.
  rewrite <- lor_fold_be_short by (rewrite length_take; lia).
  rewrite <- (for_range_lookup_fold
                (fun seg x => Z.lor (shl32 seg 8) (byte_val x)) (take 4 block)).
  rewrite length_take, Nat.min_comm. apply for_range_ext. intros k seg Hk.
  rewrite lookup_total_take_lt by lia. reflexivity.
Qed.

(** X13: the permutation of a block is a function of its first four bytes,
    and for a block of at least four bytes its shuffle is seeded with the
    parameter [a]. *)
Theorem derive_permutation_first_bytes (block1 block2 : list byte) :
  take 4 block1 = take 4 block2 ->
  derive_permutation block1 = derive_permutation block2 /\
  (4 <= length block1 -> block_seed block1 = (derive_params block1).1.1).
Proof.
  intros Htake. split.
  - unfold derive_permutation. rewrite !block_seed_be_value, Htake. reflexivity.
  - intros Hlen. rewrite block_seed_be_value.
    unfold derive_params, has_bytes. cbn [fst].
    rewrite (proj2 (Nat.leb_le 4 (length block1))) by exact Hlen.
    rewrite pack_be_be_value. f_equal.
    apply (take_4_drop block1 0). lia.
Qed.

Lemma derive_params_take (block : list byte) :
  derive_params block = derive_params (take 12 block).
Proof.
  unfold derive_params, has_bytes. rewrite length_take.
  rewrite !lookup_total_take_lt by lia.
  destruct (Nat.leb_spec 4 (length block)), (Nat.leb_spec 4 (12 `min` length block));
    try lia;
  destruct (Nat.leb_spec 8 (length block)), (Nat.leb_spec 8 (12 `min` length block));
    try lia;
  destruct (Nat.leb_spec 12 (length block)), (Nat.leb_spec 12 (12 `min` length block));
    try lia; reflexivity.
Qed.

(** X14: the parameters [a], [b], [c] of a block are a function of its
    first twelve bytes. *)
Theorem derive_params_first_bytes (block1 block2 : list byte) :
  take 12 block1 = take 12 block2 -> derive_params block1 = derive_params block2.
Proof.
  intros Htake.
  rewrite (derive_params_take block1), (derive_params_take block2), Htake.
  reflexivity.
Qed.

(** X15: whatever the block, even one shorter than 64 bytes, and whatever
    the size of the state that enters, [process_block] leaves sixteen words,
    and they fit 32 bits when the words that entered did. *)
Theorem process_block_state_shape (state : list Z) (block : list byte) :
  length (process_block state block) = 16 /\
  (Forall word32 state -> Forall word32 (process_block state block)).
Proof.
  split; [apply process_block_length | apply process_block_words].
Qed.

(** ** The hexadecimal output of [main]: proofs *)

Lemma string_app_assoc (s1 s2 s3 : string) :
  (s1 +:+ s2) +:+ s3 = s1 +:+ (s2 +:+ s3).
Proof.
  induction s1 as [|c s1 IH]; [reflexivity |].
  change (String c ((s1 +:+ s2) +:+ s3) = String c (s1 +:+ (s2 +:+ s3))).
  rewrite IH. reflexivity.
Qed.

Lemma string_app_length (s1 s2 : string) :
  String.length (s1 +:+ s2) = String.length s1 + String.length s2.
Proof.
  induction s1 as [|c s1 IH]; [reflexivity |].
  change (S (String.length (s1 +:+ s2)) = S (String.length s1) + String.length s2).
  rewrite IH. reflexivity.
Qed.

Lemma put_hex_byte_digits (b : byte) :
  put_hex_byte b
  = String (hex_digit (Byte.to_N b / 16))
           (String (hex_digit (Byte.to_N b mod 16)) "").
Proof. destruct b; reflexivity. Qed.

Lemma hex_digit_value_digit (d : N) :
  (d < 16)%N -> hex_digit_value (hex_digit d) = Some d.
Proof.
  intros Hd. rewrite <- (N2Nat.id d).
  assert (Hn : N.to_nat d < 16) by lia.
  generalize dependent (N.to_nat d). intros n Hn.
  do 16 (destruct n as [|n]; [reflexivity |]). lia.
Qed.

Lemma hex_decode_put_hex_byte (b : byte) (rest : string) :
  hex_decode (put_hex_byte b +:+ rest)
  = option_map (fun bytes => b :: bytes) (hex_decode rest).
Proof.
  rewrite put_hex_byte_digits.
  set (hi := (Byte.to_N b / 16)%N). set (lo := (Byte.to_N b mod 16)%N).
  change (hex_decode (String (hex_digit hi) (String (hex_digit lo) "") +:+ rest))
    with (match hex_digit_value (hex_digit hi), hex_digit_value (hex_digit lo),
                hex_decode rest with
          | Some hi, Some lo, Some bytes =>
              option_map (fun b => b :: bytes) (Byte.of_N (hi * 16 + lo))
          | _, _, _ => None
          end).
  pose proof (Byte.to_N_bounded b) as Hb.
  rewrite !hex_digit_value_digit
    by (subst hi lo; try apply N.Div0.div_lt_upper_bound; try apply N.mod_lt; lia).
  replace (hi * 16 + lo)%N with (Byte.to_N b)
    by (subst hi lo; rewrite N.mul_comm; apply N.div_mod; lia).
  rewrite Byte.of_to_N. destruct (hex_decode rest); reflexivity.
Qed.

Lemma string_app_nil_r (s : string) : s +:+ "" = s.
Proof.
  induction s as [|c s IH]; [reflexivity |].
  change (String c (s +:+ "") = String c s). rewrite IH. reflexivity.
Qed.

Lemma bytes_to_hex_string_acc (bytes : list byte) (acc : string) :
  fold_left (fun ss b => ss +:+ put_hex_byte b) bytes acc
  = acc +:+ bytes_to_hex_string bytes.
Proof.
  unfold bytes_to_hex_string. revert acc.
  induction bytes as [|b bytes IH]; intros acc; cbn [fold_left].
  - symmetry. apply string_app_nil_r.
  - rewrite (IH (acc +:+ put_hex_byte b)), (IH ("" +:+ put_hex_byte b)).
    change ("" +:+ put_hex_byte b) with (put_hex_byte b).
    apply string_app_assoc.
Qed.

Lemma bytes_to_hex_string_cons (b : byte) (bytes : list byte) :
  bytes_to_hex_string (b :: bytes) = put_hex_byte b +:+ bytes_to_hex_string bytes.
Proof.
  unfold bytes_to_hex_string at 1. cbn [fold_left].
  change ("" +:+ put_hex_byte b) with (put_hex_byte b).
  apply bytes_to_hex_string_acc.
Qed.

Lemma bytes_to_hex_string_round_trip_aux (bytes : list byte) :
  String.length (bytes_to_hex_string bytes) = 2 * length bytes /\
  hex_decode (bytes_to_hex_string bytes) = Some bytes.
Proof.
  induction bytes as [|b bytes [IHlen IHdec]]; [split; reflexivity |].
  rewrite bytes_to_hex_string_cons. split.
  - rewrite string_app_length, IHlen, put_hex_byte_digits. cbn [String.length length].
    lia.
  - rewrite hex_decode_put_hex_byte, IHdec. reflexivity.
Qed.

(** X16: [bytes_to_hex_string] writes exactly two lowercase hexadecimal
    digits per byte, and the text reads back to the bytes, so that byte
    sequences that differ print differently. *)
Theorem bytes_to_hex_string_round_trip (bytes1 bytes2 : list byte) :
  String.length (bytes_to_hex_string bytes1) = 2 * length bytes1 /\
  hex_decode (bytes_to_hex_string bytes1) = Some bytes1 /\
  (bytes_to_hex_string bytes1 = bytes_to_hex_string bytes2 -> bytes1 = bytes2).
Proof.
  destruct (bytes_to_hex_string_round_trip_aux bytes1) as [Hlen Hdec].
  split; [exact Hlen |]. split; [exact Hdec |].
  intros Heq. rewrite Heq in Hdec.
  destruct (bytes_to_hex_string_round_trip_aux bytes2) as [_ Hdec2].
  congruence.
Qed.

Lemma getline_first_line (line rest : list byte) :
  x0a ∉ line -> getline (line ++ x0a :: rest) = line.
Proof.
  induction line as [|c line IH]; intros Hnl; [reflexivity |].
  cbn [getline app]. destruct (Byte.eqb c x0a) eqn:Hc.
  - apply Byte.byte_dec_bl in Hc. subst c. exfalso. apply Hnl. left.
  - rewrite IH; [reflexivity |]. intros Hin. apply Hnl. right. exact Hin.
Qed.

Lemma getline_no_newline (line : list byte) : x0a ∉ line -> getline line = line.
Proof.
  induction line as [|c line IH]; intros Hnl; [reflexivity |].
  cbn [getline]. destruct (Byte.eqb c x0a) eqn:Hc.
  - apply Byte.byte_dec_bl in Hc. subst c. exfalso. apply Hnl. left.
  - rewrite IH; [reflexivity |]. intros Hin. apply Hnl. right. exact Hin.
Qed.

(** X17: [main] hashes the first input line only: what follows the first
    newline never changes the output; and the text it prints after
    ["[OUTPUT] Hashed: "] is 128 hexadecimal digits that read back to the
    digest of that line. *)
Theorem main_prints_digest_of_first_line (line rest : list byte) :
  x0a ∉ line ->
  main_stdout (line ++ x0a :: rest) = main_stdout line /\
  exists hex : string,
    main_stdout line
    = ("[INPUT] Enter input string to CosHash" +:+ newline +:+ "> ")
      +:+ ("[OUTPUT] Hashed: " +:+ hex +:+ newline) /\
    String.length hex = 128 /\
    hex_decode hex = Some (cos_hash line).
Proof.
  intros Hnl. unfold main_stdout.
  rewrite getline_first_line, getline_no_newline by exact Hnl.
  split; [reflexivity |].
  exists (bytes_to_hex_string (cos_hash line)).
  destruct (bytes_to_hex_string_round_trip_aux (cos_hash line)) as [Hlen Hdec].
  split; [reflexivity |]. split; [| exact Hdec].
  rewrite Hlen. unfold cos_hash.
  rewrite compress_state_length, block_loop_length by apply init_state_length.
  reflexivity.
Qed.

(** ** No access leaves its vector: proofs *)

Lemma bind_some {A B : Type} (x : A) (f : A -> option B) : Some x ≫= f = f x.
Proof. reflexivity. Qed.

Lemma rd_in_bounds {A : Type} `{!Inhabited A} (v : list A) (i : nat) :
  i < length v -> rd v i = Some (v !!! i).
Proof. apply list_lookup_lookup_total_lt. Qed.

Lemma wr_in_bounds {A : Type} (v : list A) (i : nat) (x : A) :
  i < length v -> wr v i x = Some (<[i := x]> v).
Proof. intros Hi. unfold wr. rewrite decide_True by exact Hi. reflexivity. Qed.

(** A checked loop whose turns all stay in bounds under an invariant is the
    unchecked loop. *)
Lemma for_range_checked_ok {S : Type} (P : S -> Prop) (n : nat)
      (body : nat -> S -> option S) (body' : nat -> S -> S) (s : S) :
  P s ->
  (forall i x, i < n -> P x -> body i x = Some (body' i x) /\ P (body' i x)) ->
  for_range_checked n body s = Some (for_range n body' s) /\
  P (for_range n body' s).
Proof.
  intros Hs Hbody. induction n as [|n IH]; [split; [reflexivity | exact Hs] |].
  destruct IH as [Heq HP]; [intros; apply Hbody; [lia | assumption] |].
  cbn [for_range_checked for_range]. rewrite Heq. cbn.
  apply Hbody; [lia | exact HP].
Qed.

Lemma derive_seed_checked_ok (input : list byte) :
  derive_seed_checked input = Some (derive_seed input).
Proof.
  unfold derive_seed_checked, derive_seed.
  apply (for_range_checked_ok (fun _ => True)); [exact I |].
  intros i seed Hi _. rewrite rd_in_bounds by exact Hi. split; [reflexivity | exact I].
Qed.

Lemma init_state_checked_ok (seed : Z) :
  init_state_checked seed = Some (init_state seed).
Proof.
  unfold init_state_checked, init_state, STATE_SIZE.
  apply (for_range_checked_ok (fun st : list Z => length st = 16));
    [apply length_replicate |].
  intros i st Hi Hst. rewrite wr_in_bounds, length_insert by lia.
  split; [reflexivity | exact Hst].
Qed.

Lemma read_be_ok (block : list byte) (offset : nat) :
  offset + 4 <= length block ->
  read_be block offset
  = Some (pack_be (block !!! offset) (block !!! (offset + 1))
                  (block !!! (offset + 2)) (block !!! (offset + 3))).
Proof.
  intros Hlen. unfold read_be. rewrite !rd_in_bounds by lia. reflexivity.
Qed.

Lemma derive_params_checked_ok (block : list byte) :
  derive_params_checked block = Some (derive_params block).
Proof.
  unfold derive_params_checked, derive_params, has_bytes.
  destruct (Nat.leb_spec 4 (length block));
    destruct (Nat.leb_spec 8 (length block));
    destruct (Nat.leb_spec 12 (length block));
    cbv beta iota; rewrite ?read_be_ok by lia; reflexivity.
Qed.

Lemma segment_checked_ok (block : list byte) (i : nat) :
  segment_checked block i = Some (segment block i).
Proof.
  unfold segment_checked, segment, has_bytes. cbv zeta.
  destruct (Nat.leb_spec (i * 4 + 4) (length block)) as [Hfull|Hshort].
  - apply read_be_ok. exact Hfull.
  - unfold trailing_segment_checked, trailing_segment.
    apply (for_range_checked_ok (fun _ => True)); [exact I |].
    intros k seg Hk _. rewrite rd_in_bounds by lia.
    split; [reflexivity | exact I].
Qed.

Lemma absorb_checked_ok (block : list byte) (state : list Z) :
  length state = 16 -> absorb_checked block state = Some (absorb block state).
Proof.
  intros Hlen. unfold absorb_checked, absorb, STATE_SIZE.
  apply (for_range_checked_ok (fun st : list Z => length st = 16));
    [exact Hlen |].
  intros i st Hi Hst. rewrite rd_in_bounds by lia. cbn.
  rewrite segment_checked_ok. cbn.
  rewrite wr_in_bounds, length_insert by lia.
  split; [reflexivity | exact Hst].
Qed.

Lemma swap_checked_ok (permutation : list Z) (i j : nat) :
  i < length permutation -> j < length permutation ->
  swap_checked permutation i j = Some (swap permutation i j).
Proof.
  intros Hi Hj. unfold swap_checked, swap.
  rewrite !rd_in_bounds by assumption. cbn.
  rewrite wr_in_bounds by exact Hi. cbn.
  apply wr_in_bounds. rewrite length_insert. exact Hj.
Qed.

Lemma shuffle_checked_ok (n : nat) (seed : Z) (permutation : list Z) :
  n < length permutation ->
  shuffle_checked n seed permutation = Some (shuffle n seed permutation).
Proof.
  revert seed permutation.
  induction n as [|n IH]; intros seed permutation Hn; [reflexivity |].
  cbn [shuffle_checked shuffle].
  set (seed' := add32 (mul32 seed 1664525) 1013904223).
  set (j := Z.to_nat (seed' mod (Z.of_nat (S n) + 1))).
  assert (Hj : j <= S n).
  { subst j. pose proof (Z.mod_pos_bound seed' (Z.of_nat (S n) + 1)). lia. }
  rewrite swap_checked_ok by lia. cbn.
  apply IH. unfold swap. rewrite !length_insert. lia.
Qed.

Lemma block_seed_checked_ok (block : list byte) :
  block_seed_checked block = Some (block_seed block).
Proof.
  unfold block_seed_checked, block_seed.
  apply (for_range_checked_ok (fun _ => True)); [exact I |].
  intros i seed Hi _. rewrite rd_in_bounds by lia.
  split; [reflexivity | exact I].
Qed.

Lemma derive_permutation_checked_ok (block : list byte) :
  derive_permutation_checked block = Some (derive_permutation block).
Proof.
  unfold derive_permutation_checked, derive_permutation.
  change identity_permutation_checked with (Some identity_permutation).
  rewrite bind_some, block_seed_checked_ok, bind_some.
  apply shuffle_checked_ok.
  rewrite identity_permutation_eq, length_fmap, length_seq. lia.
Qed.

Lemma permute_checked_ok (perm state : list Z) :
  length perm = 16 -> Forall (fun p => (0 <= p < 16)%Z) perm ->
  length state = 16 ->
  permute_checked perm state = Some (permute perm state).
Proof.
  intros Hperm Hrange Hstate. unfold permute_checked, permute, STATE_SIZE.
  apply (for_range_checked_ok (fun st : list Z => length st = 16));
    [apply length_replicate |].
  intros i st Hi Hst.
  assert (Hp : (0 <= perm !!! i < 16)%Z)
    by (apply (Forall_lookup_total_1 _ perm i Hrange); lia).
  rewrite rd_in_bounds by lia. cbn.
  unfold index_of_int. rewrite decide_True by lia. cbn.
  rewrite rd_in_bounds by lia. cbn.
  rewrite wr_in_bounds, length_insert by lia.
  split; [reflexivity | exact Hst].
Qed.

Lemma nonlinear_checked_ok (a b_param c : Z) (state : list Z) :
  length state = 16 ->
  nonlinear_checked a b_param c state = Some (nonlinear a b_param c state).
Proof.
  intros Hlen. unfold nonlinear_checked, nonlinear, STATE_SIZE.
  apply (for_range_checked_ok (fun st : list Z => length st = 16));
    [exact Hlen |].
  intros i st Hi Hst. rewrite rd_in_bounds by lia. cbn.
  rewrite wr_in_bounds, length_insert by lia.
  split; [reflexivity | exact Hst].
Qed.

Lemma diffuse_checked_ok (state : list Z) :
  length state = 16 -> diffuse_checked state = Some (diffuse state).
Proof.
  intros Hlen. unfold diffuse_checked, diffuse, STATE_SIZE.
  apply (for_range_checked_ok (fun st : list Z => length st = 16));
    [exact Hlen |].
  intros i st Hi Hst. unfold diffuse_step_checked, diffuse_step, STATE_SIZE.
  pose proof (Nat.mod_upper_bound (i + 1) 16).
  rewrite !rd_in_bounds by lia. cbn.
  rewrite wr_in_bounds, length_insert by lia.
  split; [reflexivity | exact Hst].
Qed.

Lemma process_block_checked_ok (state : list Z) (block : list byte) :
  length state = 16 ->
  process_block_checked state block = Some (process_block state block).
Proof.
  intros Hlen. unfold process_block_checked, process_block.
  rewrite derive_params_checked_ok, bind_some.
  destruct (derive_params block) as [[a b_param] c].
  rewrite absorb_checked_ok, bind_some by exact Hlen.
  rewrite nonlinear_checked_ok, bind_some by (rewrite absorb_length; exact Hlen).
  rewrite derive_permutation_checked_ok, bind_some.
  pose proof (derive_permutation_Permutation block) as Hperm.
  rewrite permute_checked_ok.
  - rewrite bind_some. apply diffuse_checked_ok, permute_length.
  - rewrite (Permutation_length Hperm), length_fmap, length_seq. reflexivity.
  - rewrite Hperm. apply Forall_fmap, Forall_forall.
    intros i Hin%elem_of_seq. cbn. lia.
  - rewrite nonlinear_length, absorb_length. exact Hlen.
Qed.

(** X18: on a 16-word state [process_block] touches no vector outside its
    bounds, whatever the block, short blocks included: the guarded reads of
    the block, the swaps of the shuffle, and [state[perm[i]]] all stay
    inside. *)
Theorem process_block_in_bounds (state : list Z) (block : list byte) :
  length state = 16 ->
  derive_params_checked block = Some (derive_params block) /\
  derive_permutation_checked block = Some (derive_permutation block) /\
  permute_checked (derive_permutation block) state
  = Some (permute (derive_permutation block) state) /\
  process_block_checked state block = Some (process_block state block).
Proof.
  intros Hlen. pose proof (derive_permutation_Permutation block) as Hperm.
  split; [apply derive_params_checked_ok |].
  split; [apply derive_permutation_checked_ok |].
  split; [| apply process_block_checked_ok; exact Hlen].
  apply permute_checked_ok; [| | exact Hlen].
  - rewrite (Permutation_length Hperm), length_fmap, length_seq. reflexivity.
  - rewrite Hperm. apply Forall_fmap, Forall_forall.
    intros i Hin%elem_of_seq. cbn. lia.
Qed.

(** X19: [cos_hash] runs without any out-of-bounds access on every input:
    every block range lies inside the padded input, and the checked and the
    unchecked computation give the same digest. *)
Theorem cos_hash_in_bounds (input : list byte) :
  cos_hash_checked input = Some (cos_hash input).
Proof.
  unfold cos_hash_checked, cos_hash, block_loop.
  rewrite derive_seed_checked_ok, bind_some.
  rewrite init_state_checked_ok, bind_some.
  destruct (for_range_checked_ok (fun st : list Z => length st = 16)
              (num_blocks (pad_input input))
              (fun b state =>
                 block ← current_block_checked (pad_input input) b;
                 process_block_checked state block)
              (fun b state =>
                 process_block state (current_block (pad_input input) b))
              (init_state (derive_seed input)))
    as [Hloop _].
  - apply init_state_length.
  - intros b st Hb Hst. unfold current_block_checked.
    rewrite decide_True.
    + rewrite bind_some, process_block_checked_ok by exact Hst.
      split; [reflexivity | apply process_block_length].
    + unfold num_blocks, BLOCK_SIZE in *.
      pose proof (Nat.Div0.mul_div_le (length (pad_input input)) 64). lia.
  - rewrite Hloop. reflexivity.
Qed.

(** X20: an input shorter than 64 bytes is hashed in one turn of the block
    loop: the digest is the serialised state after processing the single
    block made of the input, the 0x80 marker and the zero fill. *)
Theorem cos_hash_short_input (input : list byte) :
  length input < 64 ->
  cos_hash input
  = compress_state
      (process_block (init_state (derive_seed input))
                     (input ++ x80 :: repeat x00 (63 - length input))).
Proof.
  intros Hlt.
  assert (Hpad : pad_input input
                 = input ++ x80 :: repeat x00 (63 - length input)).
  { rewrite pad_input_explicit, Nat.mod_small by exact Hlt. reflexivity. }
  assert (Hlen : length (pad_input input) = 64).
  { rewrite Hpad, length_app. cbn [length]. rewrite repeat_length. lia. }
  unfold cos_hash, block_loop, num_blocks. rewrite Hlen.
  change (64 / BLOCK_SIZE) with 1. cbn [for_range].
  unfold current_block. change (0 * BLOCK_SIZE) with 0. rewrite drop_0.
  rewrite take_ge by (unfold BLOCK_SIZE; lia).
  rewrite Hpad. reflexivity.
Qed.

(** ** Invocations of [cos_hash]: proofs *)




End CosHash.

(** ** Determinism on a target *)


(** ** The nonlinear phase in double precision: proofs *)

Lemma int32_of_double_Some (x : double) (z : Z) :
  int32_of_double x = Some z ->
  double_trunc x = Some z /\ (- 2 ^ 31 <= z < 2 ^ 31)%Z.
Proof.
  unfold int32_of_double. destruct (double_trunc x) as [t|]; [| discriminate].
  rewrite bind_some. destruct (decide (- 2 ^ 31 <= t < 2 ^ 31)%Z) as [Ht|Ht];
    [| discriminate].
  intros [= <-]. split; [reflexivity | exact Ht].
Qed.

Lemma reinterpret_int32_small (z : Z) :
  (- 2 ^ 31 <= z < 2 ^ 31)%Z -> reinterpret_int32 z = z.
Proof.
  intros Hz. unfold reinterpret_int32. rewrite Z.mod_small by lia. lia.
Qed.

(** Where the conversion is defined the code does what the specification
    says, on every target. *)
Lemma nonlinear_word_in_range (sin : double -> double) (overflow : double -> Z)
    (a b_param c word mix : Z) :
  int32_of_double (mix_double sin a (Z.lxor word b_param) c) = Some mix ->
  nonlinear_word (sin_mix_double sin overflow) a b_param c word
  = ((word + mix) mod 2 ^ 32)%Z /\
  nonlinear_word_spec sin a b_param c word = Some ((word + mix) mod 2 ^ 32)%Z.
Proof.
  intros Hmix. split.
  - rewrite nonlinear_word_wraps. unfold sin_mix_double. rewrite Hmix.
    reflexivity.
  - apply int32_of_double_Some in Hmix as [Htrunc Hrange].
    unfold nonlinear_word_spec. rewrite Htrunc, bind_some.
    rewrite reinterpret_int32_small by exact Hrange. reflexivity.
Qed.

(** C3: the nonlinear phase at [state[i] = 1], [a = 1], [b = 0],
    [c = 0xffffffff], for a sine that is correctly rounded at 1.0.
    [floor(sin_val * c)] is 3614090359, which no [int32_t] holds: the
    conversion of the source is undefined, an x86-64 build adds [INT_MIN]
    and the word becomes 2147483649, where the specification's
    reinterpretation gives 3614090360. Where the conversion is defined the
    code and the specification agree. *)
Theorem nonlinear_mix_leaves_int32 (sin : double -> double) :
  sin (double_of_u32 1) = sin_of_one ->
  double_trunc (mix_double sin 1 (Z.lxor 1 0) 0xffffffff) = Some 3614090359%Z /\
  int32_of_double (mix_double sin 1 (Z.lxor 1 0) 0xffffffff) = None /\
  nonlinear_word (sin_mix_double sin overflow_x86) 1 0 0xffffffff 1
  = 2147483649%Z /\
  nonlinear_word_spec sin 1 0 0xffffffff 1 = Some 3614090360%Z /\
  (forall overflow a b_param c word mix,
     int32_of_double (mix_double sin a (Z.lxor word b_param) c) = Some mix ->
     nonlinear_word (sin_mix_double sin overflow) a b_param c word
     = ((word + mix) mod 2 ^ 32)%Z /\
     nonlinear_word_spec sin a b_param c word
     = Some ((word + mix) mod 2 ^ 32)%Z).
Proof.
  intros Hsin.
  assert (Hmix : mix_double sin 1 (Z.lxor 1 0) 0xffffffff
                 = double_floor
                     (PrimFloat.mul sin_of_one (double_of_u32 0xffffffff))).
  { unfold mix_double.
    replace (PrimFloat.mul (double_of_u32 1) (double_of_u32 (Z.lxor 1 0)))
      with (double_of_u32 1) by (vm_compute; reflexivity).
    rewrite Hsin. reflexivity. }
  assert (Htrunc : double_trunc (mix_double sin 1 (Z.lxor 1 0) 0xffffffff)
                   = Some 3614090359%Z)
    by (rewrite Hmix; vm_compute; reflexivity).
  assert (Hconv : int32_of_double (mix_double sin 1 (Z.lxor 1 0) 0xffffffff)
                  = None)
    by (rewrite Hmix; vm_compute; reflexivity).
  split; [exact Htrunc |]. split; [exact Hconv |]. split; [| split].
  - rewrite nonlinear_word_wraps. unfold sin_mix_double. rewrite Hconv.
    vm_compute. reflexivity.
  - unfold nonlinear_word_spec. rewrite Htrunc, bind_some.
    vm_compute. reflexivity.
  - intros overflow a b_param c word mix.
    apply nonlinear_word_in_range.
Qed.

(** ** Inputs shorter than eight bytes: proofs *)

Lemma mul_zero_finite (y : double) :
  double_finite y = true ->
  exists s, FloatOps.Prim2SF (PrimFloat.mul y (double_of_u32 0))
            = SpecFloat.S754_zero s.
Proof.
  unfold double_finite. intros Hy. rewrite FloatAxioms.mul_spec.
  replace (FloatOps.Prim2SF (double_of_u32 0)) with (SpecFloat.S754_zero false)
    by (vm_compute; reflexivity).
  unfold FloatAxioms.SF64mul, SpecFloat.SFmul.
  destruct (FloatOps.Prim2SF y); try discriminate; eexists; reflexivity.
Qed.

(** With [c = 0] the product [sin_val * c] is a zero, and so is [mix]. *)
Lemma sin_mix_double_c0 (sin : double -> double) (overflow : double -> Z)
    (a temp : Z) :
  sine_finite_on_words sin -> word32 a -> word32 temp ->
  sin_mix_double sin overflow a temp 0 = 0%Z.
Proof.
  intros Hsin Ha Htemp.
  destruct (mul_zero_finite _ (Hsin a temp Ha Htemp)) as [s Hs].
  unfold sin_mix_double, int32_of_double, double_trunc, mix_double, double_floor.
  rewrite !Hs. reflexivity.
Qed.

Lemma nonlinear_c0 (sin : double -> double) (overflow : double -> Z)
    (a b_param : Z) (state : list Z) :
  sine_finite_on_words sin -> word32 a -> word32 b_param ->
  length state = 16 -> Forall word32 state ->
  nonlinear (sin_mix_double sin overflow) a b_param 0 state
  = nonlinear (fun _ _ _ => 0%Z) a b_param 0 state.
Proof.
  intros Hsin Ha Hb Hlen Hstate.
  rewrite !nonlinear_wordwise by exact Hlen.
  apply list_fmap_ext. intros i w Hw.
  unfold nonlinear_word. rewrite sin_mix_double_c0; [reflexivity | exact Hsin | exact Ha |].
  apply lxor_word; [| exact Hb].
  apply (Forall_lookup_1 _ _ _ _ Hstate Hw).
Qed.

Lemma lookup_total_repeat_zero (m j : nat) :
  j < m -> repeat x00 m !!! j = x00.
Proof.
  revert j. induction m as [|m IH]; intros j Hj; [lia |].
  destruct j as [|j]; [reflexivity |]. cbn [repeat]. apply IH. lia.
Qed.

Lemma short_block_tail (input : list byte) (k : nat) :
  length input < k -> k < 64 ->
  (input ++ x80 :: repeat x00 (63 - length input)) !!! k = x00.
Proof.
  intros Hk Hk64. rewrite lookup_total_app_r by lia.
  destruct (k - length input) as [|j] eqn:Hj; [lia |].
  apply lookup_total_repeat_zero. lia.
Qed.

Lemma short_block_params (input : list byte) :
  length input < 8 ->
  exists a b_param : Z,
    derive_params (input ++ x80 :: repeat x00 (63 - length input))
    = (a, b_param, 0%Z) /\ word32 a /\ word32 b_param.
Proof.
  intros Hlen.
  set (block := input ++ x80 :: repeat x00 (63 - length input)).
  assert (Hblock : length block = 64).
  { subst block. rewrite length_app. cbn [length]. rewrite repeat_length. lia. }
  unfold derive_params.
  rewrite (has_bytes_full block 4 Hblock), (has_bytes_full block 8 Hblock),
    (has_bytes_full block 12 Hblock) by lia.
  subst block.
  rewrite (short_block_tail input 8), (short_block_tail input 9),
    (short_block_tail input 10), (short_block_tail input 11) by lia.
  eexists _, _. split; [reflexivity |].
  split; apply wrap32_word.
Qed.

Lemma cos_hash_one_block (shift_count_masked : bool) (mix : Z -> Z -> Z -> Z)
    (input : list byte) :
  length input < 64 ->
  cos_hash shift_count_masked mix input
  = compress_state
      (process_block shift_count_masked mix (init_state (derive_seed input))
                     (input ++ x80 :: repeat x00 (63 - length input))).
Proof.
  intros Hlt.
  assert (Hpad : pad_input input
                 = input ++ x80 :: repeat x00 (63 - length input)).
  { rewrite pad_input_explicit, Nat.mod_small by exact Hlt. reflexivity. }
  assert (Hlen : length (pad_input input) = 64).
  { rewrite Hpad, length_app. cbn [length]. rewrite repeat_length. lia. }
  unfold cos_hash, block_loop, num_blocks. rewrite Hlen.
  change (64 / BLOCK_SIZE) with 1. cbn [for_range].
  unfold current_block. change (0 * BLOCK_SIZE) with 0. rewrite drop_0.
  rewrite take_ge by (unfold BLOCK_SIZE; lia).
  rewrite Hpad. reflexivity.
Qed.

(** X21: for an input shorter than eight bytes the parameter [c] is zero,
    every [mix] is zero and the nonlinear phase changes nothing: the digest
    is the same for every finite sine and every conversion of the target.
    In particular the empty input has the digest [digest_of_empty_input]. *)
Theorem short_input_ignores_sine (shift_count_masked : bool)
    (sin : double -> double) (overflow : double -> Z) (input : list byte) :
  sine_finite_on_words sin -> length input < 8 ->
  cos_hash shift_count_masked (sin_mix_double sin overflow) input
  = cos_hash shift_count_masked (fun _ _ _ => 0%Z) input /\
  bytes_to_hex_string
    (cos_hash shift_count_masked (sin_mix_double sin overflow) [])
  = digest_of_empty_input.
Proof.
  intros Hsin Hlen.
  assert (Hshort : forall short : list byte,
            length short < 8 ->
            cos_hash shift_count_masked (sin_mix_double sin overflow) short
            = cos_hash shift_count_masked (fun _ _ _ => 0%Z) short).
  { intros short Hshort. rewrite !cos_hash_one_block by lia.
    apply (f_equal compress_state). unfold process_block.
    destruct (short_block_params short Hshort) as (a & b_param & -> & Ha & Hb).
    cbv beta iota.
    rewrite nonlinear_c0; [reflexivity | exact Hsin | exact Ha | exact Hb | |].
    - rewrite absorb_length. apply init_state_length.
    - apply absorb_words, init_state_words, derive_seed_word. }
  split; [apply Hshort; exact Hlen |].
  rewrite Hshort by (cbn; lia).
  destruct shift_count_masked; vm_compute; reflexivity.
Qed.

(** ** The model on concrete inputs *)

Example derive_seed_empty : derive_seed [] = 0%Z.
Proof. reflexivity. Qed.

(** One byte "a": [1 ^ (0x61 + 0x9e3779b9 + (1 << 6) + (1 >> 2))]. *)
Example derive_seed_a : derive_seed [x61] = 0x9e377a5b%Z.
Proof. reflexivity. Qed.

Example pack_be_example : pack_be x80 x00 x01 xff = 0x800001ff%Z.
Proof. reflexivity. Qed.

Example rotate_left_example :
  rotate_left false 0x80000001 1 = 3%Z /\ rotate_left true 0x80000001 1 = 3%Z.
Proof. split; reflexivity. Qed.

(** Inputs of 0, 63, 64 and 65 bytes are processed as 1, 1, 2 and 2 blocks. *)
Example block_count_scaling :
  map (fun n => num_blocks (pad_input (repeat x61 n))) [0; 63; 64; 65]
  = [1; 1; 2; 2].
Proof. vm_compute. reflexivity. Qed.

(** The permutation of the block [80 00 00 ...] of the empty input. *)
Example derive_permutation_empty_input :
  derive_permutation (pad_input [])
  = [12; 4; 0; 8; 6; 11; 1; 9; 13; 7; 14; 3; 2; 5; 10; 15]%Z.
Proof. vm_compute. reflexivity. Qed.

(** Word 15 is combined with the diffused word 0, not with the original. *)
Example diffuse_reads_diffused_word_0 :
  let state := map Z.of_nat (seq 1 16) in
  diffuse false state !!! 15%nat
  <> Z.lxor (state !!! 15%nat)
            (rotate_left false (state !!! 0%nat) (Z.land (state !!! 15%nat) 0x1F)).
Proof. vm_compute. discriminate. Qed.

(** ** The theorems at concrete inputs *)

Lemma diffuse_in_place_witness :
  let state := map Z.of_nat (seq 1 16) in
  length state = 16 /\
  diffuse true state !!! 15%nat
  = Z.lxor (state !!! 15%nat)
           (rotate_left true (diffuse true state !!! 0%nat)
                        (Z.land (state !!! 15%nat) 0x1F)).
Proof.
  intros state. split; [reflexivity |].
  apply (diffuse_in_place true state). reflexivity.
Defined.

Lemma derive_permutation_bijection_witness :
  let state := map Z.of_nat (seq 1 16) in
  length state = 16 /\
  permute (derive_permutation [x61; x62; x63]) state ≡ₚ state.
Proof.
  intros state. split; [reflexivity |].
  destruct (derive_permutation_bijection [x61; x62; x63]) as (_ & _ & _ & _ & H).
  apply H. reflexivity.
Defined.

Lemma fallbacks_unreachable_witness :
  0 < num_blocks (pad_input [x61]) /\
  length (current_block (pad_input [x61]) 0) = 64.
Proof.
  assert (H : 0 < num_blocks (pad_input [x61])) by (vm_compute; lia).
  split; [exact H |].
  apply (fallbacks_unreachable [x61] 0 H).
Defined.

Lemma rotate_left_zero_noop_witness :
  (0 <= 0xdeadbeef < 2 ^ 32)%Z /\
  rotate_left true 0xdeadbeef 0 = 0xdeadbeef%Z /\
  (0 <= rot_amount 0xffffffff < 32)%Z.
Proof.
  assert (H : (0 <= 0xdeadbeef < 2 ^ 32)%Z) by lia.
  split; [exact H |].
  apply (rotate_left_zero_noop true 0xdeadbeef 0xffffffff H).
Defined.

Lemma pad_input_injective_witness :
  [x61] <> [x62] /\ pad_input [x61] <> pad_input [x62].
Proof.
  assert (H : [x61] <> [x62]) by discriminate.
  split; [exact H |].
  apply (pad_input_injective [x61] [x62] H).
Defined.

Lemma compress_state_round_trip_witness :
  Forall word32 [0x01020304; 0xfffefdfc]%Z /\
  decompress_state (compress_state [0x01020304; 0xfffefdfc]%Z)
  = [0x01020304; 0xfffefdfc]%Z.
Proof.
  assert (H : Forall word32 [0x01020304; 0xfffefdfc]%Z)
    by (repeat constructor; unfold word32; lia).
  split; [exact H |].
  apply (compress_state_round_trip [0x01020304; 0xfffefdfc]%Z H).
Defined.

Lemma decompress_state_round_trip_witness :
  length [x01; x02; x03; x04; xff; xfe; xfd; xfc] mod 4 = 0 /\
  compress_state (decompress_state [x01; x02; x03; x04; xff; xfe; xfd; xfc])
  = [x01; x02; x03; x04; xff; xfe; xfd; xfc].
Proof.
  split; [reflexivity |].
  apply (decompress_state_round_trip [x01; x02; x03; x04; xff; xfe; xfd; xfc]).
  reflexivity.
Defined.

Lemma block_layout_witness :
  0 < length (repeat x61 65) / 64 /\
  current_block (pad_input (repeat x61 65)) 0
  = take 64 (drop (0 * 64) (repeat x61 65)).
Proof.
  assert (H : 0 < length (repeat x61 65) / 64) by (vm_compute; lia).
  split; [exact H |].
  apply (block_layout (repeat x61 65) 0). exact H.
Defined.

Lemma rotate_left_round_trip_witness :
  word32 0x80000001 /\ (0 < 5 < 32)%Z /\
  rotate_left false (rotate_left false 0x80000001 5) (32 - 5) = 0x80000001%Z.
Proof.
  assert (Hw : word32 0x80000001) by (unfold word32; lia).
  assert (Hs : (0 < 5 < 32)%Z) by lia.
  split; [exact Hw |]. split; [exact Hs |].
  apply (rotate_left_round_trip false 0x80000001 5 Hw Hs).
Defined.

Lemma init_state_separates_seeds_witness :
  word32 1 /\ word32 2 /\ 1%Z <> 2%Z /\ 3 < 16 /\
  init_state 1 !!! 3%nat <> init_state 2 !!! 3%nat.
Proof.
  assert (H1 : word32 1) by (unfold word32; lia).
  assert (H2 : word32 2) by (unfold word32; lia).
  assert (Hne : 1%Z <> 2%Z) by lia.
  assert (Hi : 3 < 16) by lia.
  repeat (split; [assumption |]).
  apply (init_state_separates_seeds 1 2 3 H1 H2 Hne Hi).
Defined.

Lemma derive_seed_last_byte_witness :
  x61 <> x62 /\ derive_seed ([x68] ++ [x61]) <> derive_seed ([x68] ++ [x62]).
Proof.
  assert (H : x61 <> x62) by discriminate.
  split; [exact H |].
  apply (derive_seed_last_byte [x68] x61 x62 H).
Defined.

Lemma segment_be_value_witness :
  length [x01; x02; x03; x04; x05] <= 2 * 4 /\
  segment [x01; x02; x03; x04; x05] 2 = 0%Z.
Proof.
  assert (H : length [x01; x02; x03; x04; x05] <= 2 * 4) by (cbn; lia).
  split; [exact H |].
  apply (segment_be_value [x01; x02; x03; x04; x05] 2). exact H.
Defined.

Lemma absorb_wordwise_witness :
  length (replicate 16 0xffffffff%Z) = 16 /\ 0 < 16 /\
  absorb [x01; x02; x03; x04] (replicate 16 0xffffffff%Z) !!! 0%nat
  = ((replicate 16 0xffffffff%Z !!! 0%nat
      + be_value (take 4 (drop (0 * 4) [x01; x02; x03; x04]))) mod 2 ^ 32)%Z.
Proof.
  assert (Hi : 0 < 16) by lia.
  split; [reflexivity |]. split; [exact Hi |].
  apply (absorb_wordwise [x01; x02; x03; x04] (replicate 16 0xffffffff%Z) 0);
    [reflexivity | exact Hi].
Defined.

Lemma nonlinear_adds_mix_witness :
  let mix := fun a temp c : Z => (- 1)%Z in
  length (replicate 16 0%Z) = 16 /\
  nonlinear mix 1 2 3 (replicate 16 0%Z)
  = (fun w => ((w + mix 1 (Z.lxor w 2) 3) mod 2 ^ 32)%Z) <$> replicate 16 0%Z.
Proof.
  intros mix. split; [reflexivity |].
  apply (nonlinear_adds_mix mix 1 2 3 (replicate 16 0%Z)). reflexivity.
Defined.

Lemma derive_permutation_first_bytes_witness :
  take 4 [x01; x02; x03; x04; x05] = take 4 [x01; x02; x03; x04; x06] /\
  derive_permutation [x01; x02; x03; x04; x05]
  = derive_permutation [x01; x02; x03; x04; x06].
Proof.
  split; [reflexivity |].
  apply (derive_permutation_first_bytes
           [x01; x02; x03; x04; x05] [x01; x02; x03; x04; x06]).
  reflexivity.
Defined.

Lemma derive_params_first_bytes_witness :
  take 12 (repeat x07 12 ++ [x01]) = take 12 (repeat x07 12 ++ [x02]) /\
  derive_params (repeat x07 12 ++ [x01]) = derive_params (repeat x07 12 ++ [x02]).
Proof.
  split; [reflexivity |].
  apply (derive_params_first_bytes (repeat x07 12 ++ [x01]) (repeat x07 12 ++ [x02])).
  reflexivity.
Defined.

Lemma process_block_state_shape_witness :
  let mix := fun a temp c : Z => 0%Z in
  Forall word32 (replicate 16 7%Z) /\
  Forall word32 (process_block false mix (replicate 16 7%Z) [x01; x02]).
Proof.
  intros mix.
  assert (H : Forall word32 (replicate 16 7%Z))
    by (apply Forall_replicate; unfold word32; lia).
  split; [exact H |].
  apply (process_block_state_shape false mix (replicate 16 7%Z) [x01; x02]).
  exact H.
Defined.

Lemma bytes_to_hex_string_round_trip_witness :
  bytes_to_hex_string [x0f; xa0] = bytes_to_hex_string [x0f; xa0] /\
  String.length (bytes_to_hex_string [x0f; xa0]) = 2 * length [x0f; xa0] /\
  hex_decode (bytes_to_hex_string [x0f; xa0]) = Some [x0f; xa0].
Proof.
  split; [reflexivity |].
  destruct (bytes_to_hex_string_round_trip [x0f; xa0] [x0f; xa0])
    as (Hlen & Hdec & _).
  split; [exact Hlen | exact Hdec].
Defined.

Lemma main_prints_digest_of_first_line_witness :
  let mix := fun a temp c : Z => 0%Z in
  (x0a ∉ [x68; x69]) /\
  main_stdout false mix ([x68; x69] ++ x0a :: [x78])
  = main_stdout false mix [x68; x69].
Proof.
  intros mix.
  assert (H : x0a ∉ [x68; x69]).
  { intros Hin. apply elem_of_cons in Hin as [Hin|Hin]; [discriminate |].
    apply elem_of_cons in Hin as [Hin|Hin]; [discriminate |].
    apply elem_of_nil in Hin. exact Hin. }
  split; [exact H |].
  apply (main_prints_digest_of_first_line false mix [x68; x69] [x78] H).
Defined.

Lemma process_block_in_bounds_witness :
  let mix := fun a temp c : Z => 0%Z in
  length (replicate 16 7%Z) = 16 /\
  process_block_checked false mix (replicate 16 7%Z) [x01; x02]
  = Some (process_block false mix (replicate 16 7%Z) [x01; x02]).
Proof.
  intros mix. split; [reflexivity |].
  apply (process_block_in_bounds false mix (replicate 16 7%Z) [x01; x02]).
  reflexivity.
Defined.

Lemma cos_hash_short_input_witness :
  let mix := fun a temp c : Z => 0%Z in
  length [x61; x62; x63] < 64 /\
  cos_hash false mix [x61; x62; x63]
  = compress_state
      (process_block false mix (init_state (derive_seed [x61; x62; x63]))
                     ([x61; x62; x63] ++ x80 :: repeat x00 (63 - 3))).
Proof.
  intros mix.
  assert (H : length [x61; x62; x63] < 64) by (cbn; lia).
  split; [exact H |].
  apply (cos_hash_short_input false mix [x61; x62; x63] H).
Defined.


Lemma nonlinear_mix_leaves_int32_witness :
  (fun _ : double => sin_of_one) (double_of_u32 1) = sin_of_one /\
  nonlinear_word (sin_mix_double (fun _ => sin_of_one) overflow_x86)
                 1 0 0xffffffff 1
  = 2147483649%Z.
Proof.
  assert (H : (fun _ : double => sin_of_one) (double_of_u32 1) = sin_of_one)
    by reflexivity.
  split; [exact H |].
  apply (nonlinear_mix_leaves_int32 (fun _ => sin_of_one) H).
Defined.

Lemma short_input_ignores_sine_witness :
  sine_finite_on_words (fun _ => sin_of_one) /\
  length [x61; x62; x63] < 8 /\
  cos_hash true (sin_mix_double (fun _ => sin_of_one) overflow_x86) [x61; x62; x63]
  = cos_hash true (fun _ _ _ => 0%Z) [x61; x62; x63].
Proof.
  assert (Hsin : sine_finite_on_words (fun _ => sin_of_one))
    by (intros a temp _ _; reflexivity).
  assert (Hlen : length [x61; x62; x63] < 8) by (cbn; lia).
  split; [exact Hsin |]. split; [exact Hlen |].
  apply (short_input_ignores_sine true (fun _ => sin_of_one) overflow_x86
           [x61; x62; x63] Hsin Hlen).
Defined.
